(** * autoinbox-AI: the email-processing pipeline, embedded and verified

    The development follows the layout of the Python sources:

    - [src/ai/ollama_client.py]      the generation client ([_generate],
      [categorize_email] and the prompt builders);
    - [src/email/gmail_client.py]    the body extraction of the mailbox client;
    - [src/email/email_processor.py] the response cleaner, the processing
      loop, the draft store and the statistics.

    Text is a list of characters, a character being a code point as in
    Python's [str].  The character classes are the interpreter's (CPython
    3.11, Unicode 14.0), and the case mappings are the interpreter's on the
    characters they are applied to or compared with an ASCII word.  The
    regular expressions are run by a backtracking matcher with the
    priorities of Python's [re] module (leftmost match, alternatives in
    order, greedy and lazy repetition). *)

From Stdlib Require Import ZArith Ascii String List Bool Lia.
From stdpp Require Import base option list gmap strings.

Import ListNotations.
Local Open Scope list_scope.

(** ** Text

    A character is its code point, a text the list of its characters. *)

Abbreviation char := N.
Abbreviation str := (list char).

Definition s2l (s : string) : str := map N_of_ascii (list_ascii_of_string s).

Definition nl : char := 10%N.

Definition is_nl (c : char) : bool := (c =? 10)%N.

(** The characters of [str.isspace], which are also the class [\s] of a
    [str] pattern and what [str.strip] removes. *)
Definition whitespace : list char :=
  [9; 10; 11; 12; 13; 28; 29; 30; 31; 32; 133; 160; 5760;
   8192; 8193; 8194; 8195; 8196; 8197; 8198; 8199; 8200; 8201; 8202;
   8232; 8233; 8239; 8287; 12288]%N.

Definition is_space (c : char) : bool := existsb (N.eqb c) whitespace.

(** The decimal digits, the class [\d] of a [str] pattern: sixty-six runs
    of ten characters, each run from its zero to its nine.  These are the
    zeros. *)
Definition decimal_zeros : list char :=
  [48; 1632; 1776; 1984; 2406; 2534; 2662; 2790; 2918; 3046; 3174; 3302;
   3430; 3558; 3664; 3792; 3872; 4160; 4240; 6112; 6160; 6470; 6608; 6784;
   6800; 6992; 7088; 7232; 7248; 42528; 43216; 43264; 43472; 43504; 43600;
   44016; 65296; 66720; 68912; 69734; 69872; 69942; 70096; 70384; 70736;
   70864; 71248; 71360; 71472; 71904; 72016; 72784; 73040; 73120; 92768;
   92864; 93008; 120782; 120792; 120802; 120812; 120822; 123200; 123632;
   125264; 130032]%N.

(** The zero of the run a digit belongs to. *)
Definition zero_of (c : char) : option char :=
  List.find (fun z => (z <=? c) && (c <? z + 10))%N decimal_zeros.

Definition is_digit (c : char) : bool :=
  match zero_of c with
  | Some _ => true
  | None => false
  end.

Definition is_upper_az (c : char) : bool := ((65 <=? c) && (c <=? 90))%N.

Definition is_lower_az (c : char) : bool := ((97 <=? c) && (c <=? 122))%N.

(** The simple lower case of a character as far as it can be an ASCII
    character: besides the letters [A-Z], the dotted capital U+0130 has the
    lower case [i] and the Kelvin sign U+212A the lower case [k]. *)
Definition fold_case (c : char) : char :=
  if is_upper_az c then (c + 32)%N
  else if (c =? 304)%N then 105%N
  else if (c =? 8490)%N then 107%N
  else c.

(** [re.IGNORECASE] on an ASCII character [p] of the pattern: the text
    character is compared through its simple lower case, and the letter i
    also stands for the dotless U+0131, the letter s for the long U+017F. *)
Definition same_letter (p c : char) : bool :=
  let lo := fold_case p in
  ((fold_case c =? lo) || (lo =? 105) && (c =? 305)
   || (lo =? 115) && (c =? 383))%N.

(** [str.upper] on the characters a category token can hold: the ASCII
    letters, the underscore, U+0130, which is its own upper case, and
    U+0131, whose upper case is [I]. *)
Definition upper_char (c : char) : char :=
  if is_lower_az c then (c - 32)%N
  else if (c =? 305)%N then 73%N
  else c.

Definition upper (s : str) : str := map upper_char s.

Definition char_eqb (a b : char) : bool := (a =? b)%N.

Fixpoint drop_while (p : char -> bool) (s : str) : str :=
  match s with
  | c :: s' => if p c then drop_while p s' else s
  | [] => []
  end.

Fixpoint take_while (p : char -> bool) (s : str) : str :=
  match s with
  | c :: s' => if p c then c :: take_while p s' else []
  | [] => []
  end.

(** [str.strip()] with no argument. *)
Definition lstrip (s : str) : str := drop_while is_space s.
Definition rstrip (s : str) : str := rev (drop_while is_space (rev s)).
Definition strip (s : str) : str := rstrip (lstrip s).

Fixpoint starts_with (p s : str) : bool :=
  match p, s with
  | [], _ => true
  | a :: p', b :: s' => char_eqb a b && starts_with p' s'
  | _ :: _, [] => false
  end.

(** [p in s] for a non-empty [p]. *)
Fixpoint contains (p s : str) : bool :=
  starts_with p s ||
  match s with
  | [] => false
  | _ :: s' => contains p s'
  end.

(** ** Regular expressions: the fragment of [re] the sources use *)

Module Re.

Record flags := Flags { ignorecase : bool; multiline : bool; dotall : bool }.

Definition no_flags : flags := Flags false false false.

Inductive atom : Type :=
| ALit (c : char)      (* a literal character *)
| ASpace                (* \s *)
| ADigit                (* \d *)
| AAny.                 (* .  *)

Inductive regex : Type :=
| REps
| RAtom (a : atom)
| RStar (greedy : bool) (a : atom)   (* a* and a*? *)
| RBol                               (* ^ *)
| REol                               (* $ *)
| RSeq (r1 r2 : regex)
| RAlt (r1 r2 : regex)
| RGroup (r : regex).                (* the capturing group number 1 *)

Definition atom_matches (f : flags) (a : atom) (c : char) : bool :=
  match a with
  | ALit x => if ignorecase f then same_letter x c else char_eqb x c
  | ASpace => is_space c
  | ADigit => is_digit c
  | AAny => dotall f || negb (is_nl c)
  end.

(** [^]: the start of the text, and under MULTILINE also after a newline.
    [prev] is the character before the current position. *)
Definition at_bol (f : flags) (prev : option char) : bool :=
  match prev with
  | None => true
  | Some c => multiline f && is_nl c
  end.

(** [$]: the end of the text or just before a final newline, and under
    MULTILINE before any newline. *)
Definition at_eol (f : flags) (s : str) : bool :=
  match s with
  | [] => true
  | c :: s' => is_nl c && (multiline f || match s' with [] => true | _ => false end)
  end.

(** Result of a match: the text left after it and the content of group 1. *)
Definition mres : Type := str * option str.

Definition kont : Type := option char -> str -> option str -> option mres.

Definition or_else (a : option mres) (b : option mres) : option mres :=
  match a with
  | Some m => Some m
  | None => b
  end.

(** Greedy repetition: the longest run first, then shorter ones. *)
Fixpoint star_greedy (p : char -> bool) (prev : option char) (s : str)
    (g : option str) (k : kont) : option mres :=
  match s with
  | c :: s' =>
      if p c then or_else (star_greedy p (Some c) s' g k) (k prev s g)
      else k prev s g
  | [] => k prev s g
  end.

(** Lazy repetition: the shortest run first. *)
Fixpoint star_lazy (p : char -> bool) (prev : option char) (s : str)
    (g : option str) (k : kont) : option mres :=
  match s with
  | c :: s' =>
      or_else (k prev s g)
              (if p c then star_lazy p (Some c) s' g k else None)
  | [] => k prev s g
  end.

Fixpoint rmatch (f : flags) (r : regex) (prev : option char) (s : str)
    (g : option str) (k : kont) {struct r} : option mres :=
  match r with
  | REps => k prev s g
  | RAtom a =>
      match s with
      | c :: s' => if atom_matches f a c then k (Some c) s' g else None
      | [] => None
      end
  | RStar true a => star_greedy (atom_matches f a) prev s g k
  | RStar false a => star_lazy (atom_matches f a) prev s g k
  | RBol => if at_bol f prev then k prev s g else None
  | REol => if at_eol f s then k prev s g else None
  | RSeq r1 r2 =>
      rmatch f r1 prev s g (fun prev' s' g' => rmatch f r2 prev' s' g' k)
  | RAlt r1 r2 => or_else (rmatch f r1 prev s g k) (rmatch f r2 prev s g k)
  | RGroup r =>
      rmatch f r prev s g
        (fun prev' s' _ =>
           k prev' s' (Some (take (length s - length s') s)))
  end.

(** A match anchored at the current position.  With [adv] set, the empty
    match is refused (what [re.sub] asks for right after an empty match). *)
Definition match_at (f : flags) (r : regex) (adv : bool)
    (prev : option char) (s : str) : option mres :=
  rmatch f r prev s None
    (fun _ s' g =>
       if adv && (length s' =? length s) then None else Some (s', g)).

(** [re.search]: the leftmost position with a match. *)
Fixpoint search_from (f : flags) (r : regex) (prev : option char) (s : str)
    : option mres :=
  match match_at f r false prev s with
  | Some m => Some m
  | None =>
      match s with
      | c :: s' => search_from f r (Some c) s'
      | [] => None
      end
  end.

Definition search (f : flags) (r : regex) (s : str) : option mres :=
  search_from f r None s.

(** [m.group(1)] of a successful search. *)
Definition group1 (m : option mres) : option str :=
  match m with
  | Some (_, g) => g
  | None => None
  end.

(** [re.sub] with a replacement without back-references.  [skip] counts the
    characters of the current match still to be passed over.  After an empty
    match the same position is tried once more for a non-empty match. *)
Fixpoint sub_loop (f : flags) (r : regex) (repl : str)
    (prev : option char) (s : str) (skip : nat) {struct s} : str :=
  let copy :=
    match s with
    | c :: s' => c :: sub_loop f r repl (Some c) s' 0
    | [] => []
    end in
  let jump (n : nat) :=
    match s with
    | c :: s' => sub_loop f r repl (Some c) s' n
    | [] => []
    end in
  match skip with
  | S n => jump n
  | O =>
      match match_at f r false prev s with
      | None => copy
      | Some (rest, _) =>
          match length s - length rest with
          | S n => repl ++ jump n
          | O =>
              repl ++
              match match_at f r true prev s with
              | Some (rest', _) =>
                  repl ++ jump (length s - length rest' - 1)
              | None => copy
              end
          end
      end
  end.

Definition sub (f : flags) (r : regex) (repl : str) (s : str) : str :=
  sub_loop f r repl None s 0.

(** Pattern builders. *)
Fixpoint lits (l : str) : regex :=
  match l with
  | [] => REps
  | c :: l' => RSeq (RAtom (ALit c)) (lits l')
  end.

Definition lit (s : string) : regex := lits (s2l s).

Definition plus (a : atom) : regex := RSeq (RAtom a) (RStar true a).

Fixpoint seqs (rs : list regex) : regex :=
  match rs with
  | [] => REps
  | [r] => r
  | r :: rs' => RSeq r (seqs rs')
  end.

Fixpoint alts (r : regex) (rs : list regex) : regex :=
  match rs with
  | [] => r
  | r' :: rs' => RAlt r (alts r' rs')
  end.

End Re.

(** ** email_processor.py: the response cleaner *)

Module Cleaner.
Import Re.

Definition re_think : regex :=
  seqs [lit "<think>"; RStar false AAny; lit "</think>"].

Definition re_opener : regex :=
  seqs [RBol;
        RGroup (alts (lit "Let me")
                  [lit "I'll"; lit "I will"; lit "Here's"; lit "Here is"]);
        RStar true AAny; REol].

Definition re_thinking_process : regex :=
  seqs [RStar true AAny; lit "thinking process"; RStar true AAny; REol].

Definition re_thought_process : regex :=
  seqs [RStar true AAny; lit "thought process"; RStar true AAny; REol].

Definition re_subject_line : regex :=
  seqs [RBol; lit "**Subject:**"; RStar true AAny; REol].

Definition re_category_line : regex :=
  seqs [RBol; lit "**Category:**"; RStar true AAny; REol].

Definition re_blank : regex :=
  seqs [RAtom (ALit nl); RStar true ASpace; RAtom (ALit nl)].

Definition f_dotall : flags := Flags false false true.
Definition f_multiline : flags := Flags false true false.
Definition f_multiline_ignorecase : flags := Flags true true false.

(** The six removals of [clean_email_body], in the order of the source. *)
Definition remove_artifacts (text : str) : str :=
  let text := sub f_dotall re_think [] text in
  let text := sub f_multiline re_opener [] text in
  let text := sub f_multiline_ignorecase re_thinking_process [] text in
  let text := sub f_multiline_ignorecase re_thought_process [] text in
  let text := sub f_multiline re_subject_line [] text in
  let text := sub f_multiline re_category_line [] text in
  text.

(** [re.sub(r'\n\s*\n', '\n\n', text)] *)
Definition collapse_blank (text : str) : str :=
  sub no_flags re_blank [nl; nl] text.

Definition clean_email_body (text : str) : str :=
  let text := remove_artifacts text in
  let text := collapse_blank text in
  let text := strip text in
  text.

(** None of the six removal patterns matches anywhere in the text. *)
Definition artifact_free (text : str) : Prop :=
  search f_dotall re_think text = None /\
  search f_multiline re_opener text = None /\
  search f_multiline_ignorecase re_thinking_process text = None /\
  search f_multiline_ignorecase re_thought_process text = None /\
  search f_multiline re_subject_line text = None /\
  search f_multiline re_category_line text = None.

End Cleaner.

(** ** Effects

    The clients and the processor act on the outside world: the generation
    service, the mailbox, the clock and the two stores on disk.  A
    computation takes the state of the world and returns the new state with
    either a value or nothing, nothing standing for a raised exception. *)

Module Effects.

Definition M (St A : Type) : Type := St -> option A * St.

Definition ret {St A : Type} (a : A) : M St A := fun w => (Some a, w).

Definition raise {St A : Type} : M St A := fun w => (None, w).

Definition bind {St A B : Type} (m : M St A) (k : A -> M St B) : M St B :=
  fun w =>
    match m w with
    | (Some a, w') => k a w'
    | (None, w') => (None, w')
    end.

(** [try: m except Exception: h] *)
Definition catch {St A : Type} (m : M St A) (h : M St A) : M St A :=
  fun w =>
    match m w with
    | (Some a, w') => (Some a, w')
    | (None, w') => h w'
    end.

Fixpoint for_each {St A B : Type} (f : B -> A -> M St B) (acc : B)
    (l : list A) : M St B :=
  match l with
  | [] => ret acc
  | x :: l' => bind (f acc x) (fun acc' => for_each f acc' l')
  end.

End Effects.

Notation "x <- m ;; k" := (Effects.bind m (fun x => k))
  (at level 100, m at next level, right associativity).

(** ** ollama_client.py: the generation client *)

Module OllamaClient.
Import Re Effects.

(** [s.split(sep)] for a non-empty [sep]: the pieces between the
    non-overlapping occurrences of [sep], scanned from the left.  [skip]
    counts the characters of the current occurrence still to pass over and
    [piece] is the piece being read. *)
Fixpoint split_loop (sep : str) (s : str) (skip : nat) (piece : str)
    : list str :=
  match s with
  | [] => [piece]
  | c :: s' =>
      match skip with
      | S n => split_loop sep s' n piece
      | O =>
          if starts_with sep s
          then piece :: split_loop sep s' (length sep - 1) []
          else split_loop sep s' 0 (piece ++ [c])
      end
  end.

Definition split (sep s : str) : list str := split_loop sep s 0 [].

(** The statements of [_generate] after the API call, inside the [try]:
    the membership test, [split] and [strip].  With an empty prompt [split]
    raises ValueError. *)
Definition strip_prompt {St : Type} (prompt response : str) : M St str :=
  if contains prompt response then
    match prompt with
    | [] => raise
    | _ :: _ => ret (strip (List.last (split prompt response) []))
    end
  else ret (strip response).

Definition join_lines (ls : list str) : str :=
  match ls with
  | [] => []
  | l :: ls' => l ++ concat (map (fun x => nl :: x) ls')
  end.

Definition categorize_prompt (subject body sender : str) : str :=
  join_lines
    [ s2l "You are an expert email assistant. Analyze the following email and:";
      s2l "1. Categorize it as one of: URGENT, IMPORTANT, or LOW_PRIORITY.";
      s2l "2. Give a confidence score (0-100) for your choice.";
      s2l "3. Briefly explain your reasoning.";
      [];
      s2l "Criteria:";
      s2l "- URGENT: Requires immediate action, has severe consequences if delayed, or uses urgent language.";
      s2l "- IMPORTANT: Needs action but not immediately, or is from a key stakeholder, but not an emergency.";
      s2l "- LOW_PRIORITY: Can be handled later, is informational, or not time-sensitive.";
      [];
      s2l "Email Subject: " ++ subject;
      s2l "Email Body: " ++ body;
      s2l "Sender: " ++ sender;
      [];
      s2l "Respond in this format:";
      s2l "Category: <category>";
      s2l "Confidence: <number>";
      s2l "Rationale: <short explanation>" ].

Definition reply_prompt (email_subject email_body category : str) : str :=
  join_lines
    [ s2l "Generate a professional email reply for:";
      s2l "        Subject: " ++ email_subject;
      s2l "        Category: " ++ category;
      s2l "        ";
      s2l "        Format the response as a clean email with:";
      s2l "        - Subject line";
      s2l "        - Professional greeting";
      s2l "        - Clear body";
      s2l "        - Professional signature";
      s2l "        ";
      s2l "        Do not include any thinking process or <think> tags.";
      s2l "        " ].

(** [stats_json] stands for [json.dumps(email_stats, indent=2)]. *)
Definition digest_prompt (stats_json : str) : str :=
  join_lines
    [ s2l "Generate a daily email digest report based on these statistics:";
      s2l "        " ++ stats_json;
      s2l "        ";
      s2l "        Include:";
      s2l "        - Summary of emails received";
      s2l "        - Categorization breakdown";
      s2l "        - Key action items";
      s2l "        - Reply status";
      s2l "        ";
      s2l "        Format as a clear, concise report:";
      s2l "        " ].

Definition draft_prompt (subject message category : str) : str :=
  join_lines
    [ s2l "Write ONLY the email draft, no explanations or reasoning:";
      [];
      s2l "Subject: " ++ subject;
      s2l "Message: " ++ message;
      s2l "Category: " ++ category;
      [];
      s2l "Output format:";
      s2l "Dear [recipient's name],";
      [];
      s2l "[body]";
      [];
      s2l "Best regards,";
      s2l "[your name]" ].

Definition URGENT : str := s2l "URGENT".
Definition IMPORTANT : str := s2l "IMPORTANT".
Definition LOW_PRIORITY : str := s2l "LOW_PRIORITY".

(** The three patterns of [categorize_email]. *)
Definition re_category : regex :=
  seqs [lit "Category:"; RStar true ASpace;
        RGroup (alts (lits URGENT) [lits IMPORTANT; lits LOW_PRIORITY])].

Definition re_confidence : regex :=
  seqs [lit "Confidence:"; RStar true ASpace; RGroup (plus ADigit)].

Definition re_rationale : regex :=
  seqs [lit "Rationale:"; RStar true ASpace; RGroup (RStar true AAny)].

Definition f_ignorecase : flags := Flags true false false.

(** The value of a decimal digit, in any script. *)
Definition digit_val (c : char) : Z :=
  match zero_of c with
  | Some z => Z.of_N (c - z)
  | None => 0
  end.

(** [sys.get_int_max_str_digits()]: the interpreter's default limit on the
    number of digits [int] converts; the program does not change it. *)
Definition int_max_str_digits : nat := 4300.

(** [int(s)] on a run of decimal digits.  A run longer than the limit is a
    ValueError, whatever its digits; anything that is not a run of digits is
    a ValueError too. *)
Definition py_int (s : str) : option Z :=
  match s with
  | [] => None
  | _ :: _ =>
      if forallb is_digit s && (length s <=? int_max_str_digits)
      then Some (fold_left (fun acc c => 10 * acc + digit_val c) s 0)%Z
      else None
  end.

Record Classification := mkClassification {
  category : str;
  confidence : Z;
  rationale : str
}.

(** The parsing half of [categorize_email], from [re.search] to the returned
    dictionary.  [None] stands for an exception: [int] on a run of digits
    longer than the limit ([.upper()] or [.strip()] on a group that did not
    take part, which the patterns exclude). *)
Definition parse_classification (response : str) : option Classification :=
  let category_match := search f_ignorecase re_category response in
  let confidence_match := search no_flags re_confidence response in
  let rationale_match := search no_flags re_rationale response in
  cat ← match category_match with
        | Some m => upper <$> group1 (Some m)
        | None => Some LOW_PRIORITY
        end;
  conf ← match confidence_match with
         | Some m => group1 (Some m) ≫= py_int
         | None => Some 0%Z
         end;
  rat ← match rationale_match with
        | Some m => strip <$> group1 (Some m)
        | None => Some []
        end;
  Some (mkClassification cat conf rat).

Section Client.
Context {St : Type}.

(** [self.client.generate(model=self.model, prompt=prompt, stream=False)]
    followed by [response['response']]; it may raise. *)
Variable client_generate : str -> M St str.

Definition _generate (prompt : str) : M St str :=
  catch (response <- client_generate prompt ;; strip_prompt prompt response)
        (ret []).

Definition categorize_email (subject body sender : str)
    : M St Classification :=
  response <- _generate (categorize_prompt subject body sender) ;;
  match parse_classification response with
  | Some result => ret result
  | None => raise
  end.

Definition generate_reply (email_subject email_body category : str)
    : M St str :=
  _generate (reply_prompt email_subject email_body category).

Definition generate_digest (stats_json : str) : M St str :=
  _generate (digest_prompt stats_json).

Definition generate_draft_email (subject message category : str)
    : M St str :=
  _generate (draft_prompt subject message category).
End Client.

End OllamaClient.

(** ** gmail_client.py: message structure and body extraction *)

Module GmailClient.

(** [base64.urlsafe_b64encode], the transport encoding of the provider:
    the [data] field of a message part holds the part's bytes in this
    encoding.  The bytes of an ASCII text are its characters. *)
Definition b64_alphabet : str :=
  s2l "ABCDEFGHIJKLMNOPQRSTUVWXYZabcdefghijklmnopqrstuvwxyz0123456789-_".

Definition b64_char (n : N) : char :=
  nth (N.to_nat n) b64_alphabet 61%N.

Fixpoint b64_blocks (bytes : list N) : str :=
  match bytes with
  | a :: b :: c :: rest =>
      let n := (a * 65536 + b * 256 + c)%N in
      [b64_char (n / 262144); b64_char ((n / 4096) mod 64);
       b64_char ((n / 64) mod 64); b64_char (n mod 64)] ++ b64_blocks rest
  | [a; b] =>
      let n := (a * 65536 + b * 256)%N in
      [b64_char (n / 262144); b64_char ((n / 4096) mod 64);
       b64_char ((n / 64) mod 64); 61%N]
  | [a] =>
      let n := (a * 65536)%N in
      [b64_char (n / 262144); b64_char ((n / 4096) mod 64);
       61%N; 61%N]
  | [] => []
  end.

Definition urlsafe_b64encode (bytes : list N) : str := b64_blocks bytes.

(** A part of a multipart payload: [part['mimeType']] and
    [part['body'].get('data')]. *)
Record Part := mkPart {
  mimeType : str;
  part_data : option str
}.

(** [msg['payload']]: the headers, the parts when the key is present, and
    [payload['body'].get('data')]. *)
Record Payload := mkPayload {
  headers : list (str * str);
  parts : option (list Part);
  body_data : option str
}.

Record Message := mkMessage {
  message_id : str;
  payload : Payload
}.

Record Email := mkEmail {
  id : str;
  subject : str;
  sender : str;
  date : str;
  body : str
}.

Definition str_eqb (a b : str) : bool := bool_decide (a = b).

(** [next((h['value'] for h in headers if h['name'] == name), dflt)] *)
Fixpoint header (name : str) (dflt : str) (hs : list (str * str)) : str :=
  match hs with
  | [] => dflt
  | (n, v) :: hs' => if str_eqb n name then v else header name dflt hs'
  end.

Fixpoint _get_body_from_parts (ps : list Part) : str :=
  match ps with
  | [] => []
  | part :: ps' =>
      (if str_eqb (mimeType part) (s2l "text/plain")
       then default [] (part_data part) else [])
      ++ _get_body_from_parts ps'
  end.

Definition _get_body_from_payload (p : Payload) : str :=
  default [] (body_data p).

(** The loop body of [fetch_emails] for one message returned by the API. *)
Definition email_of_message (msg : Message) : Email :=
  let hs := headers (payload msg) in
  {| id := message_id msg;
     subject := header (s2l "Subject") (s2l "(No Subject)") hs;
     sender := header (s2l "From") (s2l "(Unknown Sender)") hs;
     date := header (s2l "Date") (s2l "(No Date)") hs;
     body := match parts (payload msg) with
             | Some ps => _get_body_from_parts ps
             | None => _get_body_from_payload (payload msg)
             end |}.

Definition fetch_emails (messages : list Message) : list Email :=
  map email_of_message messages.

(** Results of [create_draft] and [send_email]: both catch every exception
    of the API call and return a dictionary. *)
Inductive draft_result : Type :=
| DraftCreated (draft_id message_id : str)   (* status 'draft_created' *)
| DraftError (error : str).                  (* status 'error' *)

Inductive send_result : Type :=
| Sent (sent_id thread_id : str)             (* status 'sent' *)
| SendError (error : str).                   (* status 'error' *)

End GmailClient.

(** ** email_processor.py: the pipeline, the draft store and the statistics *)

Module EmailProcessor.
Import Effects OllamaClient GmailClient Cleaner.

(** A row of [emails.csv]: the fetched email and the outcome fields. *)
Record ProcessedEmail := mkProcessedEmail {
  pe_email : Email;
  pe_category : str;
  pe_confidence : Z;
  pe_rationale : str;
  pe_draft_reply : str;
  pe_draft_id : option str;
  pe_processed_at : str
}.

(** The content of a [draft_<id>.json] file. *)
Record Draft := mkDraft {
  d_email_id : str;
  d_subject : str;
  d_draft_reply : str;
  d_category : str;
  d_confidence : Z;
  d_rationale : str;
  d_created_at : str
}.

(** The world of the processor.
    - [emails_csv]: the rows of [emails_path/emails.csv], [None] while the
      file does not exist;
    - [drafts]: the files [drafts_path/draft_<id>.json], by identifier;
    - [sent]: the files [drafts_path/sent/sent_<id>.json], by identifier;
    - [created_drafts], [sent_mail]: the calls made to the mailbox's
      [create_draft] and [send_email], oldest first, as (to, subject, body);
    - [tick]: the number of calls made to the outside so far. *)
Record World := mkWorld {
  emails_csv : option (list ProcessedEmail);
  drafts : gmap str Draft;
  sent : gmap str Draft;
  created_drafts : list (str * str * str);
  sent_mail : list (str * str * str);
  tick : nat
}.

(** What the outside answers, by call number: the messages the mailbox
    lists and gets ([None]: authentication, the [list] call or a [get] call
    raises), the completion of the generation service ([None]: the call
    raises), the results of [create_draft] and [send_email], the clock. *)
Record Env := mkEnv {
  api_messages : nat -> nat -> option (list Message);
  api_generate : nat -> str -> option str;
  api_create_draft : nat -> str -> str -> str -> draft_result;
  api_send_email : nat -> str -> str -> str -> send_result;
  api_now : nat -> str
}.

Definition advance (w : World) : World :=
  mkWorld (emails_csv w) (drafts w) (sent w) (created_drafts w) (sent_mail w)
          (S (tick w)).

Definition client_generate (E : Env) (prompt : str) : M World str :=
  fun w => (api_generate E (tick w) prompt, advance w).

(** [fetch_emails] has no [try]: what its API calls raise, it raises. *)
Definition gmail_fetch_emails (E : Env) (limit : nat) : M World (list Email) :=
  fun w => (fetch_emails <$> api_messages E (tick w) limit, advance w).

Definition gmail_create_draft (E : Env) (to subject body : str)
    : M World draft_result :=
  fun w =>
    (Some (api_create_draft E (tick w) to subject body),
     mkWorld (emails_csv w) (drafts w) (sent w)
             (created_drafts w ++ [(to, subject, body)]) (sent_mail w)
             (S (tick w))).

Definition gmail_send_email (E : Env) (to subject body : str)
    : M World send_result :=
  fun w =>
    (Some (api_send_email E (tick w) to subject body),
     mkWorld (emails_csv w) (drafts w) (sent w) (created_drafts w)
             (sent_mail w ++ [(to, subject, body)]) (S (tick w))).

(** [datetime.now().isoformat()] *)
Definition now (E : Env) : M World str :=
  fun w => (Some (api_now E (tick w)), advance w).

(** [_save_email]: append the row, creating the file when it is missing. *)
Definition _save_email (email : ProcessedEmail) : M World unit :=
  fun w =>
    (Some tt,
     mkWorld (Some (default [] (emails_csv w) ++ [email])) (drafts w) (sent w)
             (created_drafts w) (sent_mail w) (tick w)).

(** The dictionary [draft] built by [_save_draft]. *)
Definition draft_of_email (email : ProcessedEmail) : Draft :=
  {| d_email_id := id (pe_email email);
     d_subject := subject (pe_email email);
     d_draft_reply := pe_draft_reply email;
     d_category := pe_category email;
     d_confidence := pe_confidence email;
     d_rationale := pe_rationale email;
     d_created_at := pe_processed_at email |}.

(** [_save_draft]: write [draft_<id>.json], replacing an older file. *)
Definition _save_draft (email : ProcessedEmail) : M World unit :=
  fun w =>
    (Some tt,
     mkWorld (emails_csv w)
             (<[id (pe_email email) := draft_of_email email]> (drafts w))
             (sent w) (created_drafts w) (sent_mail w) (tick w)).

Record Stats := mkStats {
  total_emails : nat;
  categories : gmap str nat;
  stats_processed_at : str
}.

(** [{"URGENT": 0, "IMPORTANT": 0, "LOW_PRIORITY": 0}] *)
Definition zero_categories : gmap str nat :=
  <[URGENT := 0]> (<[IMPORTANT := 0]> (<[LOW_PRIORITY := 0]> ∅)).

(** [categories[category] += 1]: KeyError on a missing key. *)
Definition increment (cats : gmap str nat) (category : str)
    : M World (gmap str nat) :=
  match cats !! category with
  | Some n => ret (<[category := S n]> cats)
  | None => raise
  end.

(** The body of the [for] loop of [process_emails]; the accumulator holds
    [processed_emails] and [categories]. *)
Definition process_email (E : Env)
    (acc : list ProcessedEmail * gmap str nat) (email : Email)
    : M World (list ProcessedEmail * gmap str nat) :=
  cat_result <- categorize_email (client_generate E)
                  (subject email) (body email) (sender email) ;;
  cats <- increment (snd acc) (category cat_result) ;;
  draft_reply <- generate_reply (client_generate E)
                   (subject email) (body email) (category cat_result) ;;
  let cleaned_reply := clean_email_body draft_reply in
  draft_result <- gmail_create_draft E (sender email)
                    (s2l "Re: " ++ subject email) cleaned_reply ;;
  stamp <- now E ;;
  let processed_email :=
    {| pe_email := email;
       pe_category := category cat_result;
       pe_confidence := confidence cat_result;
       pe_rationale := rationale cat_result;
       pe_draft_reply := cleaned_reply;
       pe_draft_id := match draft_result with
                      | DraftCreated i _ => Some i
                      | DraftError _ => None
                      end;
       pe_processed_at := stamp |} in
  _ <- _save_email processed_email ;;
  _ <- _save_draft processed_email ;;
  ret (fst acc ++ [processed_email], cats).

Definition process_emails (E : Env) (limit : nat) : M World Stats :=
  emails <- gmail_fetch_emails E limit ;;
  acc <- for_each (process_email E) ([], zero_categories) emails ;;
  stamp <- now E ;;
  ret {| total_emails := length (fst acc);
         categories := snd acc;
         stats_processed_at := stamp |}.

(** The dictionaries [send_drafted_email] returns: the preview, or what
    [send_email] returned; the not-found dictionary has the shape of a
    [send_email] error. *)
Inductive outcome : Type :=
| Preview (to subject body : str)
| Result (r : send_result).

Definition DraftNotFound : outcome := Result (SendError (s2l "Draft not found")).

(** [os.rename(draft_path, sent_path)] *)
Definition move_to_sent (draft_id : str) (draft : Draft) : M World unit :=
  fun w =>
    (Some tt,
     mkWorld (emails_csv w) (delete draft_id (drafts w))
             (<[draft_id := draft]> (sent w)) (created_drafts w) (sent_mail w)
             (tick w)).

Definition lookup_draft (draft_id : str) : M World (option Draft) :=
  fun w => (Some (drafts w !! draft_id), w).

Definition send_drafted_email (E : Env) (draft_id recipient : str)
    (confirm : bool) : M World outcome :=
  found <- lookup_draft draft_id ;;
  match found with
  | None => ret DraftNotFound
  | Some draft =>
      let cleaned_body := clean_email_body (d_draft_reply draft) in
      if negb confirm then
        ret (Preview recipient (d_subject draft) cleaned_body)
      else
        result <- gmail_send_email E recipient (d_subject draft) cleaned_body ;;
        match result with
        | Sent _ _ =>
            _ <- move_to_sent draft_id draft ;;
            ret (Result result)
        | SendError _ => ret (Result result)
        end
  end.

(** [df['category'].value_counts().to_dict()] *)
Fixpoint value_counts (column : list str) : gmap str nat :=
  match column with
  | [] => ∅
  | c :: column' =>
      let counts := value_counts column' in
      <[c := S (default 0 (counts !! c))]> counts
  end.

Definition read_rows : M World (option (list ProcessedEmail)) :=
  fun w => (Some (emails_csv w), w).

Definition get_daily_stats (E : Env) : M World Stats :=
  file <- read_rows ;;
  match file with
  | None =>
      stamp <- now E ;;
      ret {| total_emails := 0;
             categories := zero_categories;
             stats_processed_at := stamp |}
  | Some rows =>
      let cats := value_counts (map pe_category rows) in
      stamp <- now E ;;
      ret {| total_emails := length rows;
             categories := cats;
             stats_processed_at := stamp |}
  end.

End EmailProcessor.

(** ** The parsing policy and the transport decoding, in the words of the
    specification

    These definitions do not run the matcher; the theorems below compare
    them with the code. *)

Module Spec.
Import OllamaClient.

(** The first position of a text, from the left, at which [f] finds
    something. *)
Fixpoint first_at {A : Type} (f : str -> option A) (s : str) : option A :=
  match f s with
  | Some a => Some a
  | None =>
      match s with
      | [] => None
      | _ :: s' => first_at f s'
      end
  end.

(** [f] finds nothing at any position of the text. *)
Definition nowhere {A : Type} (f : str -> option A) (s : str) : Prop :=
  forall pre rest, s = pre ++ rest -> f rest = None.

Definition same_char (a b : char) : bool := char_eqb a b.


(** The text after the label [p] when [s] begins with it. *)
Fixpoint after_prefix (same : char -> char -> bool) (p s : str)
    : option str :=
  match p, s with
  | [], _ => Some s
  | a :: p', b :: s' => if same a b then after_prefix same p' s' else None
  | _ :: _, [] => None
  end.

Definition begins_with (same : char -> char -> bool) (p s : str) : bool :=
  match after_prefix same p s with
  | Some _ => true
  | None => false
  end.

Definition not_nl (c : char) : bool := negb (is_nl c).

Definition decimal (digits : str) : Z :=
  fold_left (fun acc c => 10 * acc + digit_val c)%Z digits 0%Z.

(** One of the three category tokens in any letter case: the token as it
    is written, put in upper case. *)
Definition token_at (s : str) : option str :=
  if begins_with same_letter URGENT s
  then Some (upper (take (length URGENT) s))
  else if begins_with same_letter IMPORTANT s
  then Some (upper (take (length IMPORTANT) s))
  else if begins_with same_letter LOW_PRIORITY s
  then Some (upper (take (length LOW_PRIORITY) s))
  else None.

(** The label "Category:" in any letter case, optional whitespace, a token. *)
Definition category_at (s : str) : option str :=
  rest ← after_prefix same_letter (s2l "Category:") s;
  token_at (drop_while is_space rest).

(** The label "Confidence:", optional whitespace, a run of digits: the
    run. *)
Definition digits_at (s : str) : option str :=
  rest ← after_prefix same_char (s2l "Confidence:") s;
  match take_while is_digit (drop_while is_space rest) with
  | [] => None
  | digits => Some digits
  end.

(** The value of that run. *)
Definition confidence_at (s : str) : option Z := decimal <$> digits_at s.

(** The label "Rationale:", then the text from the first character that is
    not whitespace (line breaks included) to the end of that line, trimmed. *)
Definition rationale_at (s : str) : option str :=
  rest ← after_prefix same_char (s2l "Rationale:") s;
  Some (strip (take_while not_nl (drop_while is_space rest))).

(** The label "Rationale:", then the remainder of the label's own line,
    trimmed. *)
Definition line_remainder_at (s : str) : option str :=
  rest ← after_prefix same_char (s2l "Rationale:") s;
  Some (strip (take_while not_nl rest)).

Definition spec_category (response : str) : str :=
  default LOW_PRIORITY (first_at category_at response).

Definition spec_confidence (response : str) : Z :=
  default 0%Z (first_at confidence_at response).

(** The first run of digits after a "Confidence:" label is longer than the
    interpreter converts. *)
Definition over_limit (response : str) : bool :=
  match first_at digits_at response with
  | Some digits => negb (length digits <=? int_max_str_digits)
  | None => false
  end.

Definition spec_rationale (response : str) : str :=
  default [] (first_at rationale_at response).

Definition spec_rationale_line (response : str) : str :=
  default [] (first_at line_remainder_at response).

End Spec.

(** ** Concrete inputs: the scenarios of the specification and small worlds *)

Module Examples.
Import OllamaClient GmailClient EmailProcessor.

(** The reply of the cleaning scenario. *)
Definition scenario_reply : str :=
  join_lines
    [ s2l "<think>reasoning...</think>Here's the email.";
      s2l "Dear Sam,"; []; s2l "Thanks."; []; s2l "Best,"; s2l "Alex" ].

Definition scenario_cleaned : str :=
  join_lines [ s2l "Dear Sam,"; []; s2l "Thanks."; []; s2l "Best,"; s2l "Alex" ].

(** The response of the classification scenario. *)
Definition scenario_response : str :=
  join_lines
    [ s2l "Category: urgent"; s2l "Confidence: 87";
      s2l "Rationale: deadline today" ].

(** A response whose rationale line is left blank. *)
Definition blank_rationale_response : str :=
  join_lines [ s2l "Category: urgent"; s2l "Rationale:"; s2l "Confidence: 87" ].

(** A response without a category line. *)
Definition no_category_response : str :=
  join_lines [ s2l "Confidence: 50"; s2l "Rationale: because" ].

(** A response with a confidence above the requested range. *)
Definition overconfident_response : str :=
  join_lines [ s2l "Category: urgent"; s2l "Confidence: 250" ].

Definition message_1 : Message :=
  {| message_id := s2l "m1";
     payload :=
       {| headers := [ (s2l "Subject", s2l "Lunch");
                       (s2l "From", s2l "sam@example.org");
                       (s2l "Date", s2l "Mon, 1 Jan 2024") ];
          parts := Some [ {| mimeType := s2l "text/plain";
                             part_data := Some (urlsafe_b64encode (s2l "Hello")) |} ];
          body_data := None |} |}.

Definition message_2 : Message :=
  {| message_id := s2l "m2";
     payload :=
       {| headers := [ (s2l "Subject", s2l "Invoice");
                       (s2l "From", s2l "kim@example.org") ];
          parts := None;
          body_data := Some (urlsafe_b64encode (s2l "Hello")) |} |}.

(** A multipart message with an HTML part only. *)
Definition message_3 : Message :=
  {| message_id := s2l "m3";
     payload :=
       {| headers := [];
          parts := Some [ {| mimeType := s2l "text/html";
                             part_data := Some (urlsafe_b64encode (s2l "<b>Hi</b>")) |} ];
          body_data := Some (urlsafe_b64encode (s2l "Hello")) |} |}.

(** An outside that answers every call: the service returns the scenario
    texts (the response on odd calls, the reply on even ones), the mailbox
    creates and sends. *)
Definition friendly : Env :=
  {| api_messages := fun _ limit => Some (take limit [message_1; message_2]);
     api_generate :=
       fun t _ => Some (if Nat.even t then scenario_reply else scenario_response);
     api_create_draft := fun _ _ _ _ => DraftCreated (s2l "r-1") (s2l "msg-1");
     api_send_email := fun _ _ _ _ => Sent (s2l "sent-1") (s2l "thread-1");
     api_now := fun _ => s2l "2024-01-01T09:00:00" |}.

(** An outside where the service is down and the mailbox refuses to send. *)
Definition hostile : Env :=
  {| api_messages := fun _ _ => Some [];
     api_generate := fun _ _ => None;
     api_create_draft := fun _ _ _ _ => DraftError (s2l "quota");
     api_send_email := fun _ _ _ _ => SendError (s2l "quota");
     api_now := fun _ => s2l "2024-01-01T09:00:00" |}.

(** An outside with mail to fetch while the service is down and the
    mailbox refuses drafts. *)
Definition degraded : Env :=
  {| api_messages := fun _ limit => Some (take limit [message_1; message_2]);
     api_generate := fun _ _ => None;
     api_create_draft := fun _ _ _ _ => DraftError (s2l "quota");
     api_send_email := fun _ _ _ _ => SendError (s2l "quota");
     api_now := fun _ => s2l "2024-01-01T09:00:00" |}.

(** A response whose confidence is a run of 4301 digits. *)
Definition long_confidence_response : str :=
  s2l "Confidence: " ++ repeat 49%N 4301.

(** An outside where the service answers the second email (its
    classification is the call number 5) with that response. *)
Definition runaway : Env :=
  {| api_messages := fun _ limit => Some (take limit [message_1; message_2]);
     api_generate :=
       fun t _ => Some (if t =? 5 then long_confidence_response
                        else if Nat.even t then scenario_reply
                        else scenario_response);
     api_create_draft := fun _ _ _ _ => DraftCreated (s2l "r-1") (s2l "msg-1");
     api_send_email := fun _ _ _ _ => Sent (s2l "sent-1") (s2l "thread-1");
     api_now := fun _ => s2l "2024-01-01T09:00:00" |}.

(** A response whose category is written with the dotted capital I. *)
Definition dotted_response : str :=
  s2l "Category: " ++ [304%N] ++ s2l "MPORTANT".

(** An outside where the service answers every call with that response. *)
Definition dotting : Env :=
  {| api_messages := fun _ limit => Some (take limit [message_1; message_2]);
     api_generate := fun _ _ => Some dotted_response;
     api_create_draft := fun _ _ _ _ => DraftCreated (s2l "r-1") (s2l "msg-1");
     api_send_email := fun _ _ _ _ => Sent (s2l "sent-1") (s2l "thread-1");
     api_now := fun _ => s2l "2024-01-01T09:00:00" |}.

(** An outside where the mailbox cannot be reached. *)
Definition unreachable : Env :=
  {| api_messages := fun _ _ => None;
     api_generate := fun _ _ => None;
     api_create_draft := fun _ _ _ _ => DraftError (s2l "offline");
     api_send_email := fun _ _ _ _ => SendError (s2l "offline");
     api_now := fun _ => s2l "2024-01-01T09:00:00" |}.

Definition draft_1 : Draft :=
  {| d_email_id := s2l "m1";
     d_subject := s2l "Lunch";
     d_draft_reply := scenario_cleaned;
     d_category := URGENT;
     d_confidence := 87;
     d_rationale := s2l "deadline today";
     d_created_at := s2l "2024-01-01T09:00:00" |}.

Definition empty_world : World := mkWorld None ∅ ∅ [] [] 0.

(** A world with one draft waiting in the active partition. *)
Definition one_draft : World :=
  mkWorld None (<[s2l "m1" := draft_1]> ∅) ∅ [] [] 0.

End Examples.

(** ** Auxiliary definitions of the proofs *)

Module Aux.
Import Re Spec Cleaner OllamaClient GmailClient EmailProcessor.

(** What follows a maximal run does not continue it. *)
Definition stops (p : char -> bool) (s : str) : Prop :=
  match s with
  | [] => True
  | c :: _ => p c = false
  end.

(** The letters of the three category tokens. *)
Definition token_letters : list char :=
  s2l "URGENTIMPORTANTLOW_PRIORITY".

(** The dotted capital I, U+0130. *)
Definition dotted : char := 304%N.

(** How a literal compares characters under the flags. *)
Definition lit_same (f : flags) : char -> char -> bool :=
  if ignorecase f then same_letter else same_char.

(** A continuation that does not look at the previous character. *)
Definition prev_free (k : kont) : Prop :=
  forall p p' s g, k p s g = k p' s g.

(** What is left of a whitespace run after its last newline, when it has
    one. *)
Fixpoint after_last_nl (w : str) : option str :=
  match w with
  | [] => None
  | c :: w' =>
      match after_last_nl w' with
      | Some v => Some v
      | None => if is_nl c then Some w' else None
      end
  end.

(** [rstrip] read from the left. *)
Fixpoint rstrip_rec (s : str) : str :=
  match s with
  | [] => []
  | c :: s' =>
      match rstrip_rec s' with
      | [] => if is_space c then [] else [c]
      | r => c :: r
      end
  end.

(** The head and the tail the collapse gives a run after a newline. *)
Definition collapsed_run (w : str) : str :=
  match after_last_nl w with
  | Some v => nl :: nl :: v
  | None => nl :: w
  end.

(** The category counters hold exactly the three buckets. *)
Definition three_keys (cats : gmap str nat) : Prop :=
  dom cats = dom zero_categories.

(** The rows of the record store that carry a category. *)
Definition count_category (c : str) (rows : list ProcessedEmail) : nat :=
  length (filter (fun row => pe_category row = c) rows).

(** Every stored row has a confidence that is not negative. *)
Definition rows_nonneg (w : World) : Prop :=
  forall rows, emails_csv w = Some rows ->
    Forall (fun row => (0 <= pe_confidence row)%Z) rows.

End Aux.

Import Aux.

(** ** One run of the pipeline in closed form

    What [process_emails] writes, as functions of the answers of the
    outside; the proofs show that the loop computes exactly these. *)

Module Run.
Import Effects Spec OllamaClient GmailClient Cleaner EmailProcessor.

(** The text [_generate] returns on the call number [t]. *)
Definition generated (E : Env) (t : nat) (prompt : str) : str :=
  match api_generate E t prompt with
  | None => []
  | Some response =>
      if contains prompt response then
        match prompt with
        | [] => []
        | _ :: _ => strip (List.last (split prompt response) [])
        end
      else strip response
  end.

(** The category is a key of the counters of [process_emails]. *)
Definition is_bucket (c : str) : bool :=
  str_eqb c URGENT || str_eqb c IMPORTANT || str_eqb c LOW_PRIORITY.

(** The classification of [email], asked at call [t], returns a result, and
    a category the counters have. *)
Definition classified (E : Env) (email : Email) (t : nat) : bool :=
  let response :=
    generated E t (categorize_prompt (subject email) (body email) (sender email)) in
  negb (over_limit response) && is_bucket (spec_category response).

(** The row written for [email] when its processing starts at call [t] and
    its classification returns. *)
Definition row_of (E : Env) (email : Email) (t : nat) : ProcessedEmail :=
  let response :=
    generated E t (categorize_prompt (subject email) (body email) (sender email)) in
  let reply :=
    generated E (1 + t)
      (reply_prompt (subject email) (body email) (spec_category response)) in
  {| pe_email := email;
     pe_category := spec_category response;
     pe_confidence := spec_confidence response;
     pe_rationale := spec_rationale response;
     pe_draft_reply := clean_email_body reply;
     pe_draft_id :=
       match api_create_draft E (2 + t) (sender email)
               (s2l "Re: " ++ subject email) (clean_email_body reply) with
       | DraftCreated i _ => Some i
       | DraftError _ => None
       end;
     pe_processed_at := api_now E (3 + t) |}.

(** The rows of the emails up to the first one on which the loop raises. *)
Fixpoint rows_of (E : Env) (emails : list Email) (t : nat)
    : list ProcessedEmail :=
  match emails with
  | [] => []
  | email :: emails' =>
      if classified E email t
      then row_of E email t :: rows_of E emails' (4 + t)
      else []
  end.

Fixpoint all_classified (E : Env) (emails : list Email) (t : nat) : bool :=
  match emails with
  | [] => true
  | email :: emails' => classified E email t && all_classified E emails' (4 + t)
  end.

(** The emails [fetch_emails] hands to a run, none when it raises. *)
Definition fetched (E : Env) (limit : nat) (w : World) : list Email :=
  default [] (fetch_emails <$> api_messages E (tick w) limit).

(** [fetch_emails] returns and the loop raises on no email. *)
Definition completes (E : Env) (limit : nat) (w : World) : bool :=
  match api_messages E (tick w) limit with
  | Some messages => all_classified E (fetch_emails messages) (S (tick w))
  | None => false
  end.

(** The rows a run of [process_emails] appended to the record store. *)
Definition written (E : Env) (limit : nat) (w : World) : list ProcessedEmail :=
  drop (length (default [] (emails_csv w)))
       (default [] (emails_csv (process_emails E limit w).2)).

(** [emails.csv] after rows were appended one by one. *)
Definition append_rows (file : option (list ProcessedEmail))
    (rows : list ProcessedEmail) : option (list ProcessedEmail) :=
  match rows with
  | [] => file
  | _ :: _ => Some (default [] file ++ rows)
  end.

(** The draft files after the drafts of the rows were written in order. *)
Definition store_drafts (rows : list ProcessedEmail) (m : gmap str Draft)
    : gmap str Draft :=
  fold_left (fun m row => <[id (pe_email row) := draft_of_email row]> m) rows m.

(** The arguments of the [create_draft] call made for a row. *)
Definition provider_draft (row : ProcessedEmail) : str * str * str :=
  (sender (pe_email row), s2l "Re: " ++ subject (pe_email row),
   pe_draft_reply row).

(** The value of a bucket, 0 for a missing key. *)
Definition bucket (cats : gmap str nat) (c : str) : nat :=
  default 0 (cats !! c).

(** A category is one of the three labels. *)
Definition is_label (c : str) : Prop :=
  c = URGENT \/ c = IMPORTANT \/ c = LOW_PRIORITY.

(** Every stored row and every active draft carries one of the three
    labels. *)
Definition labelled (w : World) : Prop :=
  (forall rows, emails_csv w = Some rows ->
     Forall (fun row => is_label (pe_category row)) rows) /\
  (forall i d, drafts w !! i = Some d -> is_label (d_category d)).

End Run.

Import Run.

(** ** main.py: the command loop *)

Module Main.
Import Effects GmailClient EmailProcessor.

(** [str.lower], as far as a comparison with an ASCII word can tell.  It is
    the interpreter's on the Latin-1 range (the letters [A-Z] and the
    accented capitals from 192 to 222, the multiplication sign 215 apart) and
    on the two characters beyond it whose lower case holds an ASCII letter:
    the dotted capital U+0130, which becomes [i] and a combining dot, and
    the Kelvin sign U+212A, which becomes [k].  Any other character stands
    here for its lower case, which is not ASCII either. *)
Definition lower_char (c : char) : list char :=
  if ((65 <=? c) && (c <=? 90)
      || (192 <=? c) && (c <=? 222) && negb (c =? 215))%N
  then [(c + 32)%N]
  else if (c =? 304)%N then [105; 775]%N
  else if (c =? 8490)%N then [107]%N
  else [c].

Definition lower (s : str) : str := concat (map lower_char s).

(** What the loop prints. *)
Inductive printed : Type :=
| Exiting                      (* "Exiting..." *)
| HelpText                     (* the five lines of the help *)
| Processing                   (* "Processing emails..." and the account *)
| Processed (stats : Stats)    (* "Processed n emails", "Categories: ..." *)
| Statistics (stats : Stats)   (* "Current Email Statistics:" and two lines *)
| UnknownCommand.              (* "Unknown command. ..." *)

(** The [while True] loop of [main] on the lines typed at the prompt (no
    interrupt from the keyboard).  [limit] is
    [int(os.getenv('EMAIL_FETCH_LIMIT', '50'))].  When the lines run out,
    [input] raises [EOFError], which [main] does not catch. *)
Fixpoint main_loop (E : Env) (limit : nat) (inputs : list str)
    (out : list printed) : M World (list printed) :=
  match inputs with
  | [] => raise
  | line :: inputs' =>
      let command := lower (strip line) in
      if str_eqb command (s2l "exit") then
        ret (out ++ [Exiting])
      else if str_eqb command (s2l "help") then
        main_loop E limit inputs' (out ++ [HelpText])
      else if str_eqb command (s2l "process") then
        stats <- process_emails E limit ;;
        main_loop E limit inputs' (out ++ [Processing; Processed stats])
      else if str_eqb command (s2l "stats") then
        stats <- get_daily_stats E ;;
        main_loop E limit inputs' (out ++ [Statistics stats])
      else
        main_loop E limit inputs' (out ++ [UnknownCommand])
  end.

Definition main (E : Env) (limit : nat) (inputs : list str)
    : M World (list printed) :=
  main_loop E limit inputs [].

(** The line is the command [name], in any letter case and with any
    whitespace around it. *)
Definition is_command (name : string) (line : str) : Prop :=
  lower (strip line) = s2l name.

End Main.

Import Main.

(** * Proofs *)

(** ** Characters and text *)

Section TextFacts.

Lemma char_eqb_eq a b : char_eqb a b = true <-> a = b.
Proof. apply N.eqb_eq. Qed.

Lemma char_eqb_refl a : char_eqb a a = true.
Proof. by apply char_eqb_eq. Qed.

Lemma is_nl_eq c : is_nl c = true <-> c = nl.
Proof. apply N.eqb_eq. Qed.

Lemma is_space_elem c : is_space c = true <-> In c whitespace.
Proof.
  unfold is_space. rewrite existsb_exists. split.
  - intros (x & Hx & ->%N.eqb_eq). exact Hx.
  - intros H. exists c. split; [exact H|apply N.eqb_refl].
Qed.

(** A property checked on the whitespace characters holds of every
    whitespace character. *)
Lemma space_forall (P : char -> bool) :
  forallb P whitespace = true -> forall c, is_space c = true -> P c = true.
Proof.
  intros H c Hc%is_space_elem. rewrite forallb_forall in H. by apply H.
Qed.

Lemma nl_is_space : is_space nl = true.
Proof. reflexivity. Qed.

Lemma is_nl_is_space c : is_nl c = true -> is_space c = true.
Proof. intros H%is_nl_eq. by subst. Qed.

Lemma space_not_digit c : is_space c = true -> is_digit c = false.
Proof.
  intros H. apply negb_true_iff. revert c H.
  apply (space_forall (fun c => negb (is_digit c))).
  vm_compute. reflexivity.
Qed.

Lemma forallb_take_while p (s : str) : forallb p (take_while p s) = true.
Proof. induction s as [|c s IH]; simpl; [done|]. destruct (p c) eqn:E; simpl; [by rewrite E|done]. Qed.

Lemma take_drop_while p (s : str) : take_while p s ++ drop_while p s = s.
Proof. induction s as [|c s IH]; simpl; [done|]. destruct (p c); simpl; [by rewrite IH|done]. Qed.

Lemma drop_while_stops p (s : str) : stops p (drop_while p s).
Proof. induction s as [|c s IH]; simpl; [done|]. destruct (p c) eqn:E; simpl; done. Qed.

Lemma take_while_app p (w t : str) :
  forallb p w = true -> stops p t -> take_while p (w ++ t) = w.
Proof.
  induction w as [|c w IH]; simpl; intros Hw Ht.
  - destruct t; simpl in *; [done|by rewrite Ht].
  - apply andb_true_iff in Hw as [-> Hw]. by rewrite IH.
Qed.

Lemma drop_while_app p (w t : str) :
  forallb p w = true -> stops p t -> drop_while p (w ++ t) = t.
Proof.
  induction w as [|c w IH]; simpl; intros Hw Ht.
  - destruct t; simpl in *; [done|by rewrite Ht].
  - apply andb_true_iff in Hw as [-> Hw]. by rewrite IH.
Qed.

Lemma drop_while_stopped p (s : str) : stops p s -> drop_while p s = s.
Proof. destruct s; simpl; [done|]. by intros ->. Qed.

Lemma length_drop_while p (s : str) : length (drop_while p s) <= length s.
Proof. induction s as [|c s IH]; simpl; [lia|]. destruct (p c); simpl; lia. Qed.

Lemma take_length_drop_while p (s : str) :
  take (length s - length (drop_while p s)) s = take_while p s.
Proof.
  rewrite <- (take_drop_while p s) at 1 3.
  rewrite length_app.
  replace (_ + _ - _) with (length (take_while p s)) by lia.
  by rewrite take_app_length.
Qed.

End TextFacts.

(** ** The matcher *)

Section ReFacts.
Import Re Spec.

Lemma rmatch_seq f r1 r2 prev s g k :
  rmatch f (RSeq r1 r2) prev s g k =
  rmatch f r1 prev s g (fun prev' s' g' => rmatch f r2 prev' s' g' k).
Proof. reflexivity. Qed.

Lemma rmatch_alt f r1 r2 prev s g k :
  rmatch f (RAlt r1 r2) prev s g k =
  or_else (rmatch f r1 prev s g k) (rmatch f r2 prev s g k).
Proof. reflexivity. Qed.

Lemma rmatch_group f r prev s g k :
  rmatch f (RGroup r) prev s g k =
  rmatch f r prev s g
    (fun prev' s' _ => k prev' s' (Some (take (length s - length s') s))).
Proof. reflexivity. Qed.

Lemma rmatch_star_greedy f a prev s g k :
  rmatch f (RStar true a) prev s g k =
  star_greedy (atom_matches f a) prev s g k.
Proof. reflexivity. Qed.

Lemma rmatch_atom f a prev s g k :
  rmatch f (RAtom a) prev s g k =
  match s with
  | c :: s' => if atom_matches f a c then k (Some c) s' g else None
  | [] => None
  end.
Proof. reflexivity. Qed.

Lemma rmatch_lits f l prev s g k :
  prev_free k ->
  rmatch f (lits l) prev s g k =
  match after_prefix (lit_same f) l s with
  | Some s' => k None s' g
  | None => None
  end.
Proof.
  intros Hk. revert prev s. induction l as [|a l IH]; intros prev s.
  - simpl. apply Hk.
  - change (lits (a :: l)) with (RSeq (RAtom (ALit a)) (lits l)).
    rewrite rmatch_seq, rmatch_atom. destruct s as [|c s]; [done|].
    simpl after_prefix.
    replace (atom_matches f (ALit a) c) with (lit_same f a c)
      by (unfold lit_same, atom_matches; by destruct (ignorecase f)).
    destruct (lit_same f a c); [apply IH|done].
Qed.

Lemma star_greedy_ext p prev s g k k' :
  (forall p0 s0 g0, k p0 s0 g0 = k' p0 s0 g0) ->
  star_greedy p prev s g k = star_greedy p prev s g k'.
Proof.
  intros H. revert prev. induction s as [|c s IH]; intros prev; simpl.
  - apply H.
  - by rewrite IH, H.
Qed.

Lemma star_greedy_prev p prev prev' s g k :
  prev_free k -> star_greedy p prev s g k = star_greedy p prev' s g k.
Proof.
  intros Hk. destruct s as [|c s]; simpl; [apply Hk|].
  by rewrite (Hk prev prev').
Qed.

(** When the continuation refuses every text that goes on with the run, the
    greedy repetition takes the whole run. *)
Lemma star_greedy_max p prev s g k :
  prev_free k ->
  (forall c u g', p c = true -> k None (c :: u) g' = None) ->
  star_greedy p prev s g k = k None (drop_while p s) g.
Proof.
  intros Hk Hno. revert prev. induction s as [|c s IH]; intros prev; simpl.
  - apply Hk.
  - destruct (p c) eqn:E; [|apply Hk].
    rewrite IH. rewrite (Hk prev None), (Hno c s g E).
    by destruct (k None (drop_while p s) g).
Qed.

(** When the continuation accepts what follows the whole run, that is the
    match: longer runs are tried first. *)
Lemma star_greedy_whole p prev s g k m :
  prev_free k ->
  k None (drop_while p s) g = Some m ->
  star_greedy p prev s g k = Some m.
Proof.
  intros Hk. revert prev. induction s as [|c s IH]; intros prev; simpl.
  - intros <-. apply Hk.
  - destruct (p c) eqn:E.
    + intros H. by rewrite (IH _ H).
    + intros <-. apply Hk.
Qed.

Lemma after_prefix_length same p s s' :
  after_prefix same p s = Some s' -> length s = length p + length s'.
Proof.
  revert s. induction p as [|a p IH]; intros [|c s]; simpl; try done.
  - intros [= E]. by subst.
  - intros [= E]. by subst.
  - destruct (same a c); [|done]. intros H%IH. lia.
Qed.

Lemma after_prefix_take same p s s' :
  after_prefix same p s = Some s' ->
  take (length s - length s') s ++ s' = s.
Proof.
  revert s. induction p as [|a p IH]; intros [|c s]; simpl; try done.
  - intros [= E]. by subst.
  - intros [= E]. subst. simpl. by rewrite Nat.sub_diag.
  - destruct (same a c); [|done]. intros H.
    pose proof (after_prefix_length _ _ _ _ H).
    replace (S (length s) - length s') with (S (length s - length s')) by lia.
    simpl. by rewrite (IH _ H).
Qed.

(** [re.search] looks at the positions from the left. *)
Lemma search_from_first_at {X : Type} f r (v : mres -> X) (F : str -> option X) :
  (forall prev s, v <$> match_at f r false prev s = F s) ->
  forall prev s, v <$> search_from f r prev s = first_at F s.
Proof.
  intros H prev s. revert prev. induction s as [|c s IH]; intros prev; simpl.
  - rewrite <- (H prev []). by destruct (match_at f r false prev []).
  - rewrite <- (H prev (c :: s)).
    destruct (match_at f r false prev (c :: s)); simpl; [done|apply IH].
Qed.

(** Where the pattern matches nowhere, [re.sub] returns the text as it is. *)
Lemma sub_loop_no_match f r repl prev s :
  search_from f r prev s = None -> sub_loop f r repl prev s 0 = s.
Proof.
  revert prev. induction s as [|c s IH]; intros prev; simpl.
  - by destruct (match_at f r false prev []).
  - destruct (match_at f r false prev (c :: s)); [done|].
    intros H. by rewrite (IH _ H).
Qed.

Lemma sub_no_match f r repl s :
  search f r s = None -> sub f r repl s = s.
Proof. apply sub_loop_no_match. Qed.

End ReFacts.

(** ** categorize_email: the three searches against the parsing policy *)

Section ParseFacts.
Import Re Spec OllamaClient.

Lemma after_prefix_token same p s s' :
  after_prefix same p s = Some s' ->
  take (length s - length s') s = take (length p) s.
Proof. intros H%after_prefix_length. f_equal. lia. Qed.

Lemma is_upper_az_spec c : is_upper_az c = true <-> (65 <= c <= 90)%N.
Proof.
  unfold is_upper_az. rewrite andb_true_iff, !N.leb_le. tauto.
Qed.

Lemma is_lower_az_spec c : is_lower_az c = true <-> (97 <= c <= 122)%N.
Proof.
  unfold is_lower_az. rewrite andb_true_iff, !N.leb_le. tauto.
Qed.

Lemma fold_case_cases c :
  ((65 <= c <= 90)%N /\ fold_case c = (c + 32)%N) \/
  (c = 304%N /\ fold_case c = 105%N) \/
  (c = 8490%N /\ fold_case c = 107%N) \/
  (~ (65 <= c <= 90)%N /\ c <> 304%N /\ c <> 8490%N /\ fold_case c = c).
Proof.
  unfold fold_case. destruct (is_upper_az c) eqn:Eu.
  - left. by apply is_upper_az_spec in Eu.
  - assert (Hu : ~ (65 <= c <= 90)%N).
    { intros H%is_upper_az_spec. congruence. }
    destruct (N.eqb_spec c 304) as [->|H1]; [right; left; done|].
    destruct (N.eqb_spec c 8490) as [->|H2]; [right; right; left; done|].
    right. right. right. done.
Qed.

(** The letters of the tokens are capitals other than K and S, or the
    underscore. *)
Lemma token_letter_range a :
  In a token_letters ->
  ((65 <= a <= 90)%N /\ a <> 75%N /\ a <> 83%N) \/ a = 95%N.
Proof.
  intros Ha. vm_compute in Ha.
  repeat (destruct Ha as [<-|Ha]; [lia|]). done.
Qed.

(** What a letter of a token stands for under [re.IGNORECASE], and the upper
    case of what it stands for: the letter itself, but for the dotted
    capital U+0130, which the letter I accepts and [str.upper] keeps. *)
Lemma same_letter_upper a c :
  In a token_letters -> same_letter a c = true ->
  upper_char c = a \/ (a = 73%N /\ c = dotted).
Proof.
  intros Ha%token_letter_range Hs. unfold dotted.
  assert (Hup : upper_char c = (c - 32)%N /\ (97 <= c <= 122)%N \/
                upper_char c = 73%N /\ c = 305%N \/
                upper_char c = c /\ ~ (97 <= c <= 122)%N /\ c <> 305%N).
  { unfold upper_char. destruct (is_lower_az c) eqn:El.
    - left. by apply is_lower_az_spec in El.
    - assert (Hl : ~ (97 <= c <= 122)%N).
      { intros H%is_lower_az_spec. congruence. }
      destruct (N.eqb_spec c 305) as [->|H1]; [right; left; done|].
      right. right. done. }
  unfold same_letter in Hs.
  pose proof (fold_case_cases a) as Hfa. pose proof (fold_case_cases c) as Hfc.
  apply orb_true_iff in Hs as [Hs|Hs];
    [apply orb_true_iff in Hs as [Hs|Hs]|].
  - apply N.eqb_eq in Hs. lia.
  - apply andb_true_iff in Hs as [H1%N.eqb_eq H2%N.eqb_eq]. lia.
  - apply andb_true_iff in Hs as [H1%N.eqb_eq H2%N.eqb_eq]. lia.
Qed.

(** A token found in any letter case is returned in upper case: it is the
    label, or it holds the dotted capital. *)
Lemma upper_take_prefix p s s' :
  Forall (fun a => In a token_letters) p ->
  after_prefix same_letter p s = Some s' ->
  upper (take (length p) s) = p \/ In dotted (upper (take (length p) s)).
Proof.
  intros Hp. revert s. induction Hp as [|a p Ha _ IH]; intros s H; [by left|].
  destruct s as [|c s]; simpl in H; [done|].
  destruct (same_letter a c) eqn:E; [|done].
  cbn [length take upper map]. fold (upper (take (length p) s)).
  destruct (same_letter_upper a c Ha E) as [->|[-> ->]].
  - destruct (IH _ H) as [->|Hd]; [by left|]. right. by right.
  - right. left. reflexivity.
Qed.

Lemma after_prefix_space p c u :
  is_space c = true ->
  match p with
  | a :: _ => forallb (fun x => negb (same_letter a x)) whitespace = true
  | [] => False
  end ->
  after_prefix same_letter p (c :: u) = None.
Proof.
  intros Hc. destruct p as [|a p]; [done|]. intros Ha.
  pose proof (space_forall (fun x => negb (same_letter a x)) Ha c Hc) as Hn.
  apply negb_true_iff in Hn. cbn [after_prefix]. by rewrite Hn.
Qed.

Lemma first_at_fmap {A B : Type} (h : A -> B) (f : str -> option A) s :
  first_at (fun x => h <$> f x) s = h <$> first_at f s.
Proof.
  induction s as [|c s IH]; simpl.
  - by destruct (f []).
  - destruct (f (c :: s)); simpl; [done|apply IH].
Qed.

Lemma category_match_at prev s :
  (fun m : mres => upper <$> m.2) <$>
     match_at f_ignorecase re_category false prev s
  = Some <$> category_at s.
Proof.
  unfold match_at, re_category, seqs, alts, lit, category_at.
  set (kfin := fun (_ : option char) (s' : str) (g : option str) =>
                 if false && (length s' =? length s) then None else Some (s', g)).
  set (tokens := RAlt (lits URGENT) (RAlt (lits IMPORTANT) (lits LOW_PRIORITY))).
  assert (Htok : forall p0 s0 g0,
    rmatch f_ignorecase (RGroup tokens) p0 s0 g0 kfin =
    or_else
      (match after_prefix same_letter URGENT s0 with
       | Some s' => Some (s', Some (take (length s0 - length s') s0))
       | None => None end)
      (or_else
        (match after_prefix same_letter IMPORTANT s0 with
         | Some s' => Some (s', Some (take (length s0 - length s') s0))
         | None => None end)
        (match after_prefix same_letter LOW_PRIORITY s0 with
         | Some s' => Some (s', Some (take (length s0 - length s') s0))
         | None => None end))).
  { intros p0 s0 g0. unfold tokens.
    rewrite rmatch_group, !rmatch_alt, !rmatch_lits by (by intros ????).
    done. }
  assert (Hfree : prev_free (fun p0 s0 g0 =>
            rmatch f_ignorecase (RGroup tokens) p0 s0 g0 kfin)).
  { intros p0 p1 s0 g0. by rewrite !Htok. }
  rewrite rmatch_seq, rmatch_lits.
  2:{ intros p0 p1 s0 g0. rewrite !rmatch_seq, !rmatch_star_greedy.
      by apply star_greedy_prev. }
  change (lit_same f_ignorecase) with same_letter.
  destruct (after_prefix same_letter (s2l "Category:") s) as [s1|]; [|done].
  simpl mbind. rewrite rmatch_seq, rmatch_star_greedy.
  change (atom_matches f_ignorecase ASpace) with is_space.
  rewrite star_greedy_max; [|done|].
  2:{ intros c u g' Hc. rewrite Htok. by rewrite !after_prefix_space. }
  rewrite Htok. unfold token_at, begins_with.
  destruct (after_prefix same_letter URGENT _) eqn:E1.
  { simpl. by rewrite (after_prefix_token _ _ _ _ E1). }
  destruct (after_prefix same_letter IMPORTANT _) eqn:E2.
  { simpl. by rewrite (after_prefix_token _ _ _ _ E2). }
  destruct (after_prefix same_letter LOW_PRIORITY _) eqn:E3.
  { simpl. by rewrite (after_prefix_token _ _ _ _ E3). }
  done.
Qed.

(** [int] on a run of digits: its value up to the limit, an exception
    beyond. *)
Lemma py_int_digits (d : str) :
  d <> [] -> forallb is_digit d = true ->
  py_int d =
    if length d <=? int_max_str_digits then Some (decimal d) else None.
Proof.
  intros Hne Hd. unfold py_int. destruct d; [done|]. by rewrite Hd.
Qed.

Lemma digits_at_run s d :
  digits_at s = Some d -> d <> [] /\ forallb is_digit d = true.
Proof.
  unfold digits_at.
  destruct (after_prefix same_char (s2l "Confidence:") s) as [rest|]; [|done].
  simpl.
  pose proof (forallb_take_while is_digit (drop_while is_space rest)) as Hd.
  destruct (take_while is_digit (drop_while is_space rest)); [done|].
  by intros [= <-].
Qed.

Lemma confidence_match_at prev s :
  (fun m : mres => m.2) <$> match_at no_flags re_confidence false prev s
  = Some <$> digits_at s.
Proof.
  unfold match_at, re_confidence, seqs, plus, lit, digits_at.
  set (kfin := fun (_ : option char) (s' : str) (g : option str) =>
                 if false && (length s' =? length s) then None else Some (s', g)).
  set (digits := RGroup (RSeq (RAtom ADigit) (RStar true ADigit))).
  assert (Hdig : forall p0 s0 g0,
    rmatch no_flags digits p0 s0 g0 kfin =
    match take_while is_digit s0 with
    | [] => None
    | d => Some (drop_while is_digit s0, Some d)
    end).
  { intros p0 s0 g0. unfold digits.
    rewrite rmatch_group, rmatch_seq, rmatch_atom.
    destruct s0 as [|c s0]; [done|].
    change (atom_matches no_flags ADigit c) with (is_digit c).
    simpl take_while. simpl drop_while.
    destruct (is_digit c) eqn:E; [|done].
    rewrite rmatch_star_greedy.
    change (atom_matches no_flags ADigit) with is_digit.
    erewrite star_greedy_whole; [|by intros ????|reflexivity].
    unfold kfin. simpl andb. cbv iota. do 3 f_equal.
    pose proof (take_length_drop_while is_digit (c :: s0)) as Ht.
    simpl drop_while in Ht. simpl take_while in Ht. by rewrite E in Ht. }
  rewrite rmatch_seq, rmatch_lits.
  2:{ intros p0 p1 s0 g0. rewrite !rmatch_seq, !rmatch_star_greedy.
      apply star_greedy_prev. intros ????. by rewrite !Hdig. }
  change (lit_same no_flags) with same_char.
  destruct (after_prefix same_char (s2l "Confidence:") s) as [s1|]; [|done].
  simpl mbind. rewrite rmatch_seq, rmatch_star_greedy.
  change (atom_matches no_flags ASpace) with is_space.
  rewrite star_greedy_max.
  2:{ intros ????. by rewrite !Hdig. }
  2:{ intros c u g' Hc. rewrite Hdig. simpl.
      by rewrite (space_not_digit _ Hc). }
  rewrite Hdig.
  by destruct (take_while is_digit (drop_while is_space s1)).
Qed.

Lemma rationale_match_at prev s :
  (fun m : mres => strip <$> m.2) <$>
     match_at no_flags re_rationale false prev s
  = Some <$> rationale_at s.
Proof.
  unfold match_at, re_rationale, seqs, lit, rationale_at.
  set (kfin := fun (_ : option char) (s' : str) (g : option str) =>
                 if false && (length s' =? length s) then None else Some (s', g)).
  set (line := RGroup (RStar true AAny)).
  assert (Hline : forall p0 s0 g0,
    rmatch no_flags line p0 s0 g0 kfin =
    Some (drop_while not_nl s0, Some (take_while not_nl s0))).
  { intros p0 s0 g0. unfold line.
    rewrite rmatch_group, rmatch_star_greedy.
    change (atom_matches no_flags AAny) with not_nl.
    erewrite star_greedy_whole; [|by intros ????|reflexivity].
    unfold kfin. simpl andb. cbv iota.
    by rewrite take_length_drop_while. }
  rewrite rmatch_seq, rmatch_lits.
  2:{ intros p0 p1 s0 g0. rewrite !rmatch_seq, !rmatch_star_greedy.
      apply star_greedy_prev. intros ????. by rewrite !Hline. }
  change (lit_same no_flags) with same_char.
  destruct (after_prefix same_char (s2l "Rationale:") s) as [s1|]; [|done].
  simpl mbind. rewrite rmatch_seq, rmatch_star_greedy.
  change (atom_matches no_flags ASpace) with is_space.
  erewrite star_greedy_whole; [| |apply Hline].
  2:{ intros ????. by rewrite !Hline. }
  done.
Qed.

Lemma search_spec {X : Type} f r (v : mres -> option X) (F : str -> option X)
    (dflt : X) response :
  (forall prev s, v <$> match_at f r false prev s = Some <$> F s) ->
  match search f r response with
  | Some m => v m
  | None => Some dflt
  end = Some (default dflt (first_at F response)).
Proof.
  intros H.
  pose proof (search_from_first_at f r v (fun s => Some <$> F s) H None response)
    as Hs.
  rewrite first_at_fmap in Hs. fold (search f r response) in Hs.
  destruct (search f r response), (first_at F response); simpl in *; congruence.
Qed.

Lemma first_at_run response d :
  first_at digits_at response = Some d -> d <> [] /\ forallb is_digit d = true.
Proof.
  induction response as [|c s IH]; cbn [first_at].
  - destruct (digits_at []) eqn:E; [|done]. intros [= <-].
    by apply (digits_at_run []).
  - destruct (digits_at (c :: s)) eqn:E.
    + intros [= <-]. by apply (digits_at_run (c :: s)).
    + apply IH.
Qed.

(** The confidence field: the value of the first run of digits after a
    "Confidence:" label, 0 without one, an exception when the run is longer
    than the interpreter converts. *)
Lemma confidence_search_spec response :
  match search no_flags re_confidence response with
  | Some m => m.2 ≫= py_int
  | None => Some 0%Z
  end = if over_limit response then None else Some (spec_confidence response).
Proof.
  pose proof (search_from_first_at no_flags re_confidence
    (fun m : mres => m.2) (fun s => Some <$> digits_at s)
    confidence_match_at None response) as Hs.
  rewrite first_at_fmap in Hs. fold (search no_flags re_confidence response) in Hs.
  unfold over_limit, spec_confidence, confidence_at. rewrite first_at_fmap.
  destruct (first_at digits_at response) as [d|] eqn:Ed.
  - destruct (search no_flags re_confidence response) as [m|]; [|done].
    simpl in Hs. injection Hs as ->. simpl.
    apply first_at_run in Ed as [Hne Hd].
    rewrite (py_int_digits d Hne Hd).
    by destruct (length d <=? int_max_str_digits).
  - by destruct (search no_flags re_confidence response).
Qed.

(** The parser raises exactly on an over-long run of digits, and otherwise
    each field follows the parsing policy. *)
Lemma parse_classification_spec response :
  parse_classification response =
  if over_limit response then None
  else Some {| category := spec_category response;
               confidence := spec_confidence response;
               rationale := spec_rationale response |}.
Proof.
  unfold parse_classification.
  pose proof (search_spec f_ignorecase re_category
    (fun m => upper <$> m.2) category_at LOW_PRIORITY response
    category_match_at) as Hc.
  pose proof (confidence_search_spec response) as Hn.
  pose proof (search_spec no_flags re_rationale
    (fun m => strip <$> m.2) rationale_at [] response
    rationale_match_at) as Hr.
  assert (Hg : forall m : mres, group1 (Some m) = m.2) by (by intros []).
  destruct (search f_ignorecase re_category response) as [mc|];
  destruct (search no_flags re_confidence response) as [mn|];
  destruct (search no_flags re_rationale response) as [mr|];
  rewrite ?Hg; rewrite Hc, Hn, Hr; by destruct (over_limit response).
Qed.

End ParseFacts.

(** ** The response cleaner: blank-line collapsing and trimming *)

Section CleanerFacts.
Import Re Cleaner.

Abbreviation blank_from := (sub_loop no_flags re_blank [nl; nl]).

Lemma lit_nl_matches c : atom_matches no_flags (ALit nl) c = is_nl c.
Proof.
  change (atom_matches no_flags (ALit nl) c) with (char_eqb nl c).
  unfold char_eqb, is_nl, nl. apply N.eqb_sym.
Qed.

Lemma star_greedy_last_nl prev s g :
  star_greedy is_space prev s g
    (fun _ s0 g0 =>
       match s0 with
       | c :: s1 => if is_nl c then Some (s1, g0) else None
       | [] => None
       end)
  = match after_last_nl (take_while is_space s) with
    | Some v => Some (v ++ drop_while is_space s, g)
    | None => None
    end.
Proof.
  revert prev. induction s as [|c s IH]; intros prev; simpl; [done|].
  destruct (is_space c) eqn:E; simpl.
  - rewrite IH. destruct (after_last_nl (take_while is_space s)); simpl; [done|].
    destruct (is_nl c); [|done]. by rewrite take_drop_while.
  - destruct (is_nl c) eqn:En; [|done].
    by rewrite (is_nl_is_space _ En) in E.
Qed.

Lemma blank_match_at prev s :
  match_at no_flags re_blank false prev s =
  match s with
  | c :: s' =>
      if is_nl c then
        match after_last_nl (take_while is_space s') with
        | Some v => Some (v ++ drop_while is_space s', None)
        | None => None
        end
      else None
  | [] => None
  end.
Proof.
  unfold match_at, re_blank, seqs. rewrite rmatch_seq, rmatch_atom.
  destruct s as [|c s']; [done|]. rewrite lit_nl_matches.
  destruct (is_nl c); [|done].
  rewrite rmatch_seq, rmatch_star_greedy.
  change (atom_matches no_flags ASpace) with is_space.
  rewrite <- star_greedy_last_nl with (prev := Some c).
  apply star_greedy_ext. intros p0 s0 g0. rewrite rmatch_atom.
  destruct s0 as [|c0 s0]; [done|]. by rewrite lit_nl_matches.
Qed.

Lemma blank_match_prev adv prev s :
  match_at no_flags re_blank adv prev s = match_at no_flags re_blank adv None s.
Proof.
  unfold match_at, re_blank, seqs. rewrite !rmatch_seq, !rmatch_atom.
  by destruct s.
Qed.

Lemma sub_loop_cons_skip f r repl prev c s n :
  sub_loop f r repl prev (c :: s) (S n) = sub_loop f r repl (Some c) s n.
Proof. reflexivity. Qed.

Lemma sub_loop_cons_0 f r repl prev c s :
  sub_loop f r repl prev (c :: s) 0 =
  match match_at f r false prev (c :: s) with
  | None => c :: sub_loop f r repl (Some c) s 0
  | Some (rest, _) =>
      match length (c :: s) - length rest with
      | S n => repl ++ sub_loop f r repl (Some c) s n
      | O =>
          repl ++
          match match_at f r true prev (c :: s) with
          | Some (rest', _) =>
              repl ++ sub_loop f r repl (Some c) s
                        (length (c :: s) - length rest' - 1)
          | None => c :: sub_loop f r repl (Some c) s 0
          end
      end
  end.
Proof. reflexivity. Qed.

Lemma blank_prev prev s n : blank_from prev s n = blank_from None s n.
Proof.
  destruct s as [|c s].
  - by destruct n.
  - destruct n; [|done].
    rewrite !sub_loop_cons_0.
    by rewrite (blank_match_prev false prev), (blank_match_prev true prev).
Qed.

Lemma blank_nil : blank_from None [] 0 = [].
Proof. reflexivity. Qed.

Lemma blank_cons_other prev c s :
  is_nl c = false -> blank_from prev (c :: s) 0 = c :: blank_from None s 0.
Proof.
  intros Hc. rewrite sub_loop_cons_0, blank_match_at, Hc.
  by rewrite blank_prev.
Qed.

Lemma blank_skip prev u rest :
  blank_from prev (u ++ rest) (length u) = blank_from None rest 0.
Proof.
  revert prev. induction u as [|c u IH]; intros prev; simpl app; simpl length.
  - apply blank_prev.
  - rewrite sub_loop_cons_skip. apply IH.
Qed.

Lemma after_last_nl_none_app prev v t :
  after_last_nl v = None ->
  blank_from prev (v ++ t) 0 = v ++ blank_from None t 0.
Proof.
  revert prev. induction v as [|c v IH]; intros prev; simpl.
  - intros _. apply blank_prev.
  - destruct (after_last_nl v); [done|].
    destruct (is_nl c) eqn:E; [done|]. intros _.
    rewrite <- (IH (Some c) eq_refl).
    change (blank_from prev (c :: v ++ t) 0 = c :: blank_from (Some c) (v ++ t) 0).
    rewrite (blank_cons_other _ _ _ E). by rewrite (blank_prev (Some c)).
Qed.

Lemma after_last_nl_split w v :
  after_last_nl w = Some v ->
  exists u, w = u ++ v /\ after_last_nl v = None /\ length u = S (pred (length u)).
Proof.
  revert v. induction w as [|c w IH]; intros v; simpl; [done|].
  destruct (after_last_nl w) as [v'|] eqn:E.
  - intros [= <-]. destruct (IH _ eq_refl) as (u & -> & Hv & Hu).
    exists (c :: u). by simpl.
  - destruct (is_nl c); [|done]. intros [= <-].
    exists [c]. by simpl.
Qed.

(** The collapse of a whitespace run that starts with a newline: two
    newlines and what followed the last one, or the run itself when it has
    no other newline. *)
Lemma blank_cons_nl prev c s :
  is_nl c = true ->
  blank_from prev (c :: s) 0 =
  match after_last_nl (take_while is_space s) with
  | Some v => nl :: nl :: v ++ blank_from None (drop_while is_space s) 0
  | None => c :: take_while is_space s ++ blank_from None (drop_while is_space s) 0
  end.
Proof.
  intros Hc. rewrite sub_loop_cons_0, blank_match_at, Hc.
  destruct (after_last_nl (take_while is_space s)) as [v|] eqn:E.
  - destruct (after_last_nl_split _ _ E) as (u & Hw & Hv & Hu).
    pose proof (take_drop_while is_space s) as Hs. rewrite Hw in Hs.
    replace (length (c :: s) - length (v ++ drop_while is_space s))
      with (S (length u)).
    2:{ rewrite <- Hs at 1. simpl. rewrite !length_app. lia. }
    rewrite <- Hs at 1. rewrite <- app_assoc, blank_skip.
    by rewrite (after_last_nl_none_app _ _ _ Hv).
  - rewrite <- (take_drop_while is_space s) at 1.
    by rewrite (after_last_nl_none_app _ _ _ E).
Qed.

Lemma collapse_cons_other c s :
  is_nl c = false -> collapse_blank (c :: s) = c :: collapse_blank s.
Proof. apply blank_cons_other. Qed.

Lemma collapse_cons_nl s :
  collapse_blank (nl :: s) =
  match after_last_nl (take_while is_space s) with
  | Some v => (nl :: nl :: v) ++ collapse_blank (drop_while is_space s)
  | None => (nl :: take_while is_space s) ++ collapse_blank (drop_while is_space s)
  end.
Proof. by apply blank_cons_nl. Qed.

Lemma not_space_not_nl c : is_space c = false -> is_nl c = false.
Proof.
  intros H. destruct (is_nl c) eqn:E; [|done].
  by rewrite (is_nl_is_space _ E) in H.
Qed.

Lemma collapse_stops t :
  stops is_space t -> stops is_space (collapse_blank t).
Proof.
  destruct t as [|c t]; [done|]. simpl. intros H.
  by rewrite (collapse_cons_other _ _ (not_space_not_nl _ H)).
Qed.

Lemma after_last_nl_space w v :
  forallb is_space w = true -> after_last_nl w = Some v ->
  forallb is_space v = true.
Proof.
  revert v. induction w as [|c w IH]; intros v; simpl; [done|].
  intros [Hc Hw]%andb_true_iff.
  destruct (after_last_nl w) as [v'|].
  - intros [= <-]. by apply IH.
  - destruct (is_nl c); [|done]. by intros [= <-].
Qed.

Lemma after_last_nl_tail w v :
  after_last_nl w = Some v -> after_last_nl v = None.
Proof. intros H. by destruct (after_last_nl_split _ _ H) as (u & _ & Hv & _). Qed.

Lemma collapse_cons_run s :
  collapse_blank (nl :: s) =
  collapsed_run (take_while is_space s) ++ collapse_blank (drop_while is_space s).
Proof.
  rewrite collapse_cons_nl. unfold collapsed_run.
  by destruct (after_last_nl (take_while is_space s)).
Qed.

Lemma collapsed_run_space w :
  forallb is_space w = true -> forallb is_space (collapsed_run w) = true.
Proof.
  intros H. unfold collapsed_run.
  destruct (after_last_nl w) as [v|] eqn:E; simpl; [|done].
  by rewrite (after_last_nl_space _ _ H E).
Qed.

(** Collapsing a run that is already collapsed changes nothing. *)
Lemma collapsed_run_again w t :
  forallb is_space w = true -> stops is_space t ->
  collapse_blank (collapsed_run w ++ t) = collapsed_run w ++ collapse_blank t.
Proof.
  intros Hw Ht. unfold collapsed_run.
  destruct (after_last_nl w) as [v|] eqn:E.
  - pose proof (after_last_nl_space _ _ Hw E) as Hv.
    pose proof (after_last_nl_tail _ _ E) as Hn.
    change ((nl :: nl :: v) ++ t) with (nl :: (nl :: v) ++ t).
    rewrite collapse_cons_run.
    rewrite take_while_app, drop_while_app by (simpl; by rewrite ?Hv).
    unfold collapsed_run. simpl. by rewrite Hn.
  - change ((nl :: w) ++ t) with (nl :: w ++ t).
    rewrite collapse_cons_run.
    rewrite take_while_app, drop_while_app by done.
    unfold collapsed_run. by rewrite E.
Qed.

Lemma collapse_blank_idem s :
  collapse_blank (collapse_blank s) = collapse_blank s.
Proof.
  induction s as [s IH] using (induction_ltof1 _ (@length char)).
  unfold ltof in IH. destruct s as [|c s]; [done|].
  destruct (is_nl c) eqn:E.
  - apply is_nl_eq in E as ->. rewrite collapse_cons_run.
    rewrite collapsed_run_again.
    + rewrite IH; [done|]. simpl.
      pose proof (length_drop_while is_space s). lia.
    + apply forallb_take_while.
    + apply collapse_stops, drop_while_stops.
  - rewrite collapse_cons_other by done.
    rewrite collapse_cons_other by done.
    rewrite IH; [done|]. simpl. lia.
Qed.

Lemma lstrip_collapse s :
  lstrip (collapse_blank s) = collapse_blank (lstrip s).
Proof.
  unfold lstrip. induction s as [|c s IH]; [done|].
  destruct (is_nl c) eqn:E.
  - apply is_nl_eq in E as ->. rewrite collapse_cons_run.
    rewrite drop_while_app.
    + done.
    + apply collapsed_run_space, forallb_take_while.
    + apply collapse_stops, drop_while_stops.
  - rewrite collapse_cons_other by done. simpl.
    destruct (is_space c) eqn:Es; [apply IH|].
    by rewrite collapse_cons_other.
Qed.

Lemma drop_while_snoc p (a : str) c :
  drop_while p (a ++ [c]) =
  match drop_while p a with
  | [] => if p c then [] else [c]
  | r => r ++ [c]
  end.
Proof.
  induction a as [|x a IH]; simpl; [by destruct (p c)|].
  by destruct (p x).
Qed.

Lemma rstrip_rec_eq s : rstrip s = rstrip_rec s.
Proof.
  unfold rstrip. induction s as [|c s IH]; [done|].
  simpl rev. rewrite drop_while_snoc. simpl rstrip_rec. rewrite <- IH.
  destruct (drop_while is_space (rev s)) as [|x r]; simpl.
  - by destruct (is_space c).
  - rewrite rev_app_distr. simpl.
    destruct (rev r ++ [x]) eqn:Er; [by destruct (rev r)|done].
Qed.

Lemma rstrip_rec_space s :
  forallb is_space s = true -> rstrip_rec s = [].
Proof.
  induction s as [|c s IH]; simpl; [done|].
  intros [Hc Hs]%andb_true_iff. by rewrite (IH Hs), Hc.
Qed.

Lemma rstrip_rec_app a b :
  rstrip_rec b <> [] -> rstrip_rec (a ++ b) = a ++ rstrip_rec b.
Proof.
  intros Hb. induction a as [|c a IH]; simpl; [done|].
  rewrite IH. by destruct (a ++ rstrip_rec b) eqn:E;
    [apply app_eq_nil in E as [_ ?]|].
Qed.

Lemma rstrip_rec_head c s :
  is_space c = false -> exists x, rstrip_rec (c :: s) = c :: x.
Proof.
  intros Hc. simpl. rewrite Hc. destruct (rstrip_rec s); eauto.
Qed.

Lemma collapse_nonempty c s : collapse_blank (c :: s) <> [].
Proof.
  destruct (is_nl c) eqn:E.
  - apply is_nl_eq in E as ->. rewrite collapse_cons_run.
    unfold collapsed_run. by destruct (after_last_nl _).
  - by rewrite collapse_cons_other.
Qed.

Lemma rstrip_rec_collapse s :
  rstrip_rec (collapse_blank s) = collapse_blank (rstrip_rec s).
Proof.
  induction s as [s IH] using (induction_ltof1 _ (@length char)).
  unfold ltof in IH. destruct s as [|c s]; [done|].
  destruct (is_nl c) eqn:E.
  - apply is_nl_eq in E as ->. rewrite collapse_cons_run.
    pose proof (forallb_take_while is_space s) as Hw.
    pose proof (drop_while_stops is_space s) as Ht.
    pose proof (take_drop_while is_space s) as Hs.
    assert (Hlen : length (drop_while is_space s) < length (nl :: s)).
    { simpl. pose proof (length_drop_while is_space s). lia. }
    destruct (drop_while is_space s) as [|c0 t] eqn:Et.
    + rewrite app_nil_r in Hs. rewrite Hs in Hw.
      rewrite (rstrip_rec_space (nl :: s)) by (simpl; by rewrite Hw).
      change (collapse_blank []) with (@nil char).
      rewrite app_nil_r, Hs.
      by rewrite rstrip_rec_space by (by apply collapsed_run_space).
    + simpl in Ht.
      destruct (rstrip_rec_head c0 t Ht) as [x Hx].
      pose proof (IH _ Hlen) as IHt. rewrite Hx in IHt.
      rewrite (collapse_cons_other c0 x) in IHt by (by apply not_space_not_nl).
      rewrite rstrip_rec_app by (by rewrite IHt).
      rewrite IHt. rewrite <- Hs at 2.
      change (nl :: take_while is_space s ++ c0 :: t)
        with ((nl :: take_while is_space s) ++ c0 :: t).
      rewrite rstrip_rec_app by (by rewrite Hx). rewrite Hx.
      change ((nl :: take_while is_space s) ++ c0 :: x)
        with (nl :: take_while is_space s ++ c0 :: x).
      rewrite collapse_cons_run.
      rewrite take_while_app, drop_while_app by done.
      by rewrite (collapse_cons_other c0 x) by (by apply not_space_not_nl).
  - rewrite collapse_cons_other by done. simpl.
    rewrite IH by (simpl; lia).
    destruct (rstrip_rec s) as [|x r] eqn:Er.
    + change (collapse_blank []) with (@nil char).
      destruct (is_space c); [done|]. by rewrite collapse_cons_other.
    + destruct (collapse_blank (x :: r)) eqn:Ec.
      * by apply collapse_nonempty in Ec.
      * rewrite <- Ec. by rewrite (collapse_cons_other c).
Qed.

Lemma strip_collapse s : strip (collapse_blank s) = collapse_blank (strip s).
Proof.
  unfold strip. by rewrite lstrip_collapse, !rstrip_rec_eq, rstrip_rec_collapse.
Qed.

Lemma rstrip_rec_idem s : rstrip_rec (rstrip_rec s) = rstrip_rec s.
Proof.
  induction s as [|c s IH]; simpl; [done|].
  destruct (rstrip_rec s) as [|x r] eqn:E.
  - destruct (is_space c) eqn:Ec; simpl; [done|by rewrite Ec].
  - simpl in *. by rewrite IH.
Qed.

Lemma strip_idem s : strip (strip s) = strip s.
Proof.
  unfold strip, lstrip. rewrite !rstrip_rec_eq.
  pose proof (drop_while_stops is_space s) as Hs.
  destruct (drop_while is_space s) as [|c t]; [done|]. simpl in Hs.
  destruct (rstrip_rec_head c t Hs) as [x Hx].
  rewrite (drop_while_stopped is_space (rstrip_rec (c :: t)))
    by (by rewrite Hx).
  apply rstrip_rec_idem.
Qed.

(** Blank-line collapsing followed by trimming is idempotent. *)
Lemma tidy_idem s :
  strip (collapse_blank (strip (collapse_blank s))) = strip (collapse_blank s).
Proof.
  rewrite (strip_collapse s), collapse_blank_idem.
  by rewrite strip_collapse, strip_idem.
Qed.

End CleanerFacts.

(** ** The generation client and the processing loop *)

Section PipelineFacts.
Import Effects Spec OllamaClient GmailClient Cleaner EmailProcessor.

Lemma starts_with_app (p s : str) : starts_with p (p ++ s) = true.
Proof.
  induction p as [|a p IH]; simpl; [done|]. by rewrite char_eqb_refl, IH.
Qed.

Lemma contains_app (p s : str) : contains p (p ++ s) = true.
Proof.
  destruct (p ++ s) eqn:E; simpl; rewrite <- E, starts_with_app; done.
Qed.

Lemma split_loop_skip sep (a rest piece : str) :
  split_loop sep (a ++ rest) (length a) piece = split_loop sep rest 0 piece.
Proof. induction a as [|c a IH]; simpl; [by destruct rest|apply IH]. Qed.

Lemma split_loop_absent sep (s piece : str) :
  contains sep s = false -> split_loop sep s 0 piece = [piece ++ s].
Proof.
  revert piece. induction s as [|c s IH]; intros piece; simpl.
  - by rewrite app_nil_r.
  - intros [Hs Hc]%orb_false_iff. rewrite Hs, (IH _ Hc).
    by rewrite <- app_assoc.
Qed.

(** The response is the prompt followed by a completion: the first piece of
    the split is empty and the scan goes on in the completion. *)
Lemma split_echo (prompt completion : str) :
  prompt <> [] ->
  split prompt (prompt ++ completion) = [] :: split prompt completion.
Proof.
  intros Hp. unfold split. destruct prompt as [|c p]; [done|].
  change ((c :: p) ++ completion) with (c :: p ++ completion).
  cbn [split_loop]. change (c :: p ++ completion) with ((c :: p) ++ completion).
  rewrite starts_with_app.
  replace (length (c :: p) - 1) with (length p) by (simpl; lia).
  by rewrite split_loop_skip.
Qed.

(** [_generate] never raises; it answers the empty text when the call to the
    service raises. *)
Lemma _generate_total {St : Type} (client : str -> M St str) prompt w :
  exists text, _generate client prompt w = (Some text, (client prompt w).2).
Proof.
  unfold _generate, catch, bind, strip_prompt, ret, raise.
  destruct (client prompt w) as [[response|] w']; simpl; [|eauto].
  destruct (contains prompt response); [|eauto].
  destruct prompt; eauto.
Qed.

Lemma first_at_some {A : Type} (f : str -> option A) s a :
  first_at f s = Some a -> exists pre s', s = pre ++ s' /\ f s' = Some a.
Proof.
  induction s as [|c s IH]; simpl.
  - destruct (f []) eqn:E; [|done]. intros [= <-]. by exists [], [].
  - destruct (f (c :: s)) eqn:E.
    + intros [= <-]. by exists [], (c :: s).
    + intros (pre & s' & -> & H)%IH. by exists (c :: pre), s'.
Qed.

Lemma first_at_none {A : Type} (f : str -> option A) s :
  first_at f s = None <-> nowhere f s.
Proof.
  unfold nowhere. split.
  - induction s as [|c s IH]; simpl.
    + destruct (f []) eqn:E; [done|]. intros _ pre rest Hs.
      symmetry in Hs. apply app_eq_nil in Hs as [_ ->]. exact E.
    + destruct (f (c :: s)) eqn:E; [done|]. intros H pre rest Hs.
      destruct pre as [|x pre]; simpl in Hs.
      * by subst.
      * injection Hs as _ Hs. by apply (IH H pre).
  - intros H. destruct (first_at f s) as [a|] eqn:E; [|done].
    apply first_at_some in E as (pre & rest & Hs & Hf).
    by rewrite (H pre rest Hs) in Hf.
Qed.

Lemma token_letters_label p :
  is_label p -> Forall (fun a => In a token_letters) p.
Proof.
  assert (Hall : token_letters = URGENT ++ IMPORTANT ++ LOW_PRIORITY)
    by reflexivity.
  intros Hp. apply Forall_forall. intros a Ha%list_elem_of_In. rewrite Hall.
  rewrite !in_app_iff. destruct Hp as [-> | [-> | ->]]; tauto.
Qed.

(** The upper case of a token written in any letter case is one of the
    three labels, unless the token is written with the dotted capital. *)
Lemma token_at_label s t :
  token_at s = Some t -> is_label t \/ In dotted t.
Proof.
  unfold token_at, begins_with.
  destruct (after_prefix same_letter URGENT s) as [s1|] eqn:E1.
  { intros [= <-].
    destruct (upper_take_prefix _ _ _
                (token_letters_label URGENT (or_introl eq_refl)) E1)
      as [Hu|Hd]; [left; left; exact Hu|right; exact Hd]. }
  destruct (after_prefix same_letter IMPORTANT s) as [s2|] eqn:E2.
  { intros [= <-].
    destruct (upper_take_prefix _ _ _
                (token_letters_label IMPORTANT (or_intror (or_introl eq_refl))) E2)
      as [Hu|Hd]; [left; right; left; exact Hu|right; exact Hd]. }
  destruct (after_prefix same_letter LOW_PRIORITY s) as [s3|] eqn:E3; [|done].
  intros [= <-].
  destruct (upper_take_prefix _ _ _
              (token_letters_label LOW_PRIORITY (or_intror (or_intror eq_refl))) E3)
    as [Hu|Hd]; [left; right; right; exact Hu|right; exact Hd].
Qed.

Lemma spec_category_cases response :
  is_label (spec_category response) \/ In dotted (spec_category response).
Proof.
  unfold spec_category. destruct (first_at category_at response) as [t|] eqn:E;
    simpl; [|left; right; by right].
  apply first_at_some in E as (pre & s' & _ & H). unfold category_at in H.
  destruct (after_prefix same_letter (s2l "Category:") s'); [|done].
  simpl in H. by apply token_at_label in H.
Qed.

Lemma is_bucket_label c : is_bucket c = true <-> is_label c.
Proof.
  unfold is_bucket, is_label, str_eqb.
  rewrite !orb_true_iff, !bool_decide_eq_true. tauto.
Qed.

Lemma horner_nonneg d acc :
  (0 <= acc)%Z -> forallb is_digit d = true ->
  (0 <= fold_left (fun acc c => 10 * acc + digit_val c) d acc)%Z.
Proof.
  revert acc. induction d as [|c d IH]; intros acc Hacc; simpl; [done|].
  intros [Hc Hd]%andb_true_iff. apply IH; [|done].
  unfold digit_val. destruct (zero_of c); lia.
Qed.

Lemma spec_confidence_nonneg response : (0 <= spec_confidence response)%Z.
Proof.
  unfold spec_confidence, confidence_at. rewrite first_at_fmap.
  destruct (first_at digits_at response) as [d|] eqn:E; simpl; [|done].
  apply first_at_run in E as [_ Hd]. by apply horner_nonneg.
Qed.

Lemma three_keys_label cats c :
  three_keys cats -> is_label c -> is_Some (cats !! c).
Proof.
  intros Hk Hc. apply elem_of_dom. rewrite Hk.
  destruct Hc as [Hc | [Hc | Hc]]; rewrite Hc;
    apply elem_of_dom; exists 0; vm_compute; reflexivity.
Qed.

Lemma three_keys_other cats c :
  three_keys cats -> is_bucket c = false -> cats !! c = None.
Proof.
  intros Hk Hc. apply not_elem_of_dom. rewrite Hk.
  unfold zero_categories. rewrite !dom_insert_L, dom_empty_L.
  intros Hin. apply not_true_iff_false in Hc. apply Hc, is_bucket_label.
  unfold is_label.
  apply elem_of_union in Hin as [Hin%elem_of_singleton|Hin]; [by left|].
  apply elem_of_union in Hin as [Hin%elem_of_singleton|Hin]; [right; by left|].
  apply elem_of_union in Hin as [Hin%elem_of_singleton|Hin]; [right; by right|].
  by apply elem_of_empty in Hin.
Qed.

Lemma three_keys_insert cats k n :
  three_keys cats -> is_Some (cats !! k) -> three_keys (<[k := n]> cats).
Proof.
  unfold three_keys. intros Hd Hk. rewrite dom_insert_L, <- Hd.
  apply elem_of_dom in Hk. apply subseteq_union_1_L.
  by apply singleton_subseteq_l.
Qed.

Lemma three_keys_zero : three_keys zero_categories.
Proof. reflexivity. Qed.

Lemma three_keys_dom cats :
  three_keys cats -> dom cats = {[URGENT; IMPORTANT; LOW_PRIORITY]}.
Proof.
  unfold three_keys. intros ->. unfold zero_categories.
  rewrite !dom_insert_L, dom_empty_L. set_solver.
Qed.

(** *** The loop in closed form *)

Lemma _generate_run E prompt w :
  _generate (client_generate E) prompt w =
  (Some (generated E (tick w) prompt), advance w).
Proof.
  unfold _generate, catch, bind, strip_prompt, ret, raise, client_generate,
    generated.
  destruct (api_generate E (tick w) prompt) as [response|]; simpl; [|done].
  destruct (contains prompt response); [|done]. by destruct prompt.
Qed.

Lemma categorize_email_run E s b f w :
  categorize_email (client_generate E) s b f w =
  (parse_classification (generated E (tick w) (categorize_prompt s b f)),
   advance w).
Proof.
  unfold categorize_email, bind. rewrite _generate_run.
  by destruct (parse_classification _).
Qed.

(** One iteration of the loop of [process_emails]: it raises, after the
    classification call, when the conversion of the confidence raises or the
    category is no key of the counters, and otherwise it writes the row of
    the email. *)
Lemma process_email_run E acc email w :
  three_keys acc.2 ->
  process_email E acc email w =
  if classified E email (tick w) then
    (Some (acc.1 ++ [row_of E email (tick w)],
           <[pe_category (row_of E email (tick w)) :=
               S (bucket acc.2 (pe_category (row_of E email (tick w))))]> acc.2),
     mkWorld (Some (default [] (emails_csv w) ++ [row_of E email (tick w)]))
             (<[id email := draft_of_email (row_of E email (tick w))]> (drafts w))
             (sent w)
             (created_drafts w ++ [provider_draft (row_of E email (tick w))])
             (sent_mail w) (4 + tick w))
  else (None, advance w).
Proof.
  intros Hk. unfold process_email. unfold bind at 1.
  rewrite categorize_email_run, parse_classification_spec. unfold classified.
  destruct (over_limit _) eqn:Eo; [done|]. cbn [negb andb category confidence rationale].
  unfold bind at 1. unfold increment.
  destruct (is_bucket _) eqn:Eb.
  - destruct (three_keys_label _ _ Hk (proj1 (is_bucket_label _) Eb)) as [n Hn].
    rewrite Hn. unfold ret at 1. unfold bind at 1. unfold generate_reply.
    rewrite _generate_run.
    unfold bucket, row_of. cbn [pe_category]. rewrite Hn. reflexivity.
  - by rewrite (three_keys_other _ _ Hk Eb).
Qed.

Lemma bucket_insert (m : gmap str nat) k c :
  bucket (<[k := S (bucket m k)]> m) c =
  bucket m c + (if decide (k = c) then 1 else 0).
Proof.
  unfold bucket. destruct (decide (k = c)) as [->|Hne].
  - rewrite lookup_insert_eq. simpl. lia.
  - rewrite lookup_insert_ne by done. lia.
Qed.

Lemma count_category_cons c row rows :
  count_category c (row :: rows) =
  (if decide (pe_category row = c) then 1 else 0) + count_category c rows.
Proof.
  unfold count_category. destruct (decide (pe_category row = c)).
  - by rewrite filter_cons_True.
  - by rewrite filter_cons_False.
Qed.

Lemma append_rows_cons file row rows :
  append_rows (Some (default [] file ++ [row])) rows =
  append_rows file (row :: rows).
Proof.
  destruct rows as [|r rows]; simpl; [done|]. by rewrite <- app_assoc.
Qed.

(** The loop of [process_emails], from any accumulator with the three
    buckets and any world: it stops at the first email whose classification
    raises, and this is what it leaves. *)
Lemma for_each_run E emails acc w0 :
  three_keys acc.2 ->
  exists cats t',
    for_each (process_email E) acc emails w0 =
      ((if all_classified E emails (tick w0)
        then Some (acc.1 ++ rows_of E emails (tick w0), cats) else None),
       mkWorld (append_rows (emails_csv w0) (rows_of E emails (tick w0)))
               (store_drafts (rows_of E emails (tick w0)) (drafts w0))
               (sent w0)
               (created_drafts w0 ++
                  map provider_draft (rows_of E emails (tick w0)))
               (sent_mail w0) t')
    /\ three_keys cats
    /\ forall c, bucket cats c =
                 bucket acc.2 c + count_category c (rows_of E emails (tick w0)).
Proof.
  revert acc w0. induction emails as [|email emails IH]; intros acc w0 Hk.
  - exists acc.2, (tick w0). simpl. rewrite !app_nil_r.
    split; [by destruct acc, w0|]. split; [done|]. intros c.
    unfold count_category. simpl. lia.
  - cbn [for_each all_classified rows_of]. unfold bind.
    rewrite (process_email_run E acc email w0 Hk).
    destruct (classified E email (tick w0)) eqn:Ec.
    + set (row := row_of E email (tick w0)).
      assert (Hk' : three_keys (<[pe_category row := S (bucket acc.2 (pe_category row))]> acc.2)).
      { apply three_keys_insert; [done|]. apply three_keys_label; [done|].
        apply is_bucket_label. unfold classified in Ec.
        by apply andb_true_iff in Ec as [_ Ec]. }
      destruct (IH (acc.1 ++ [row],
                    <[pe_category row := S (bucket acc.2 (pe_category row))]> acc.2)
                   (mkWorld (Some (default [] (emails_csv w0) ++ [row]))
                      (<[id email := draft_of_email row]> (drafts w0)) (sent w0)
                      (created_drafts w0 ++ [provider_draft row]) (sent_mail w0)
                      (4 + tick w0)) Hk')
        as (cats & t' & Hrun & Hk'' & Hcount).
      exists cats, t'. rewrite Hrun. cbn [fst snd tick emails_csv drafts sent
        created_drafts sent_mail andb].
      split; [|split; [done|]].
      * rewrite append_rows_cons, <- !app_assoc. reflexivity.
      * intros c. rewrite Hcount. cbn [snd tick]. rewrite bucket_insert.
        rewrite count_category_cons. fold row.
        destruct (decide (pe_category row = c)); lia.
    + exists acc.2, (S (tick w0)). cbn [andb map append_rows store_drafts fold_left].
      rewrite app_nil_r. split; [done|]. split; [done|].
      intros c. unfold count_category. simpl. lia.
Qed.

Lemma bucket_zero c : bucket zero_categories c = 0.
Proof.
  unfold bucket.
  destruct (zero_categories !! c) as [n|] eqn:E; [|done]. simpl.
  unfold zero_categories in E.
  repeat (apply lookup_insert_Some in E as [[_ <-]|[_ E]]; [done|]).
  by rewrite lookup_empty in E.
Qed.

(** [process_emails] from any world: it returns when [fetch_emails] does and
    every classification does; in every case the rows written are those of
    the emails before the first failure, and this is the world it leaves. *)
Lemma process_emails_run E limit w :
  exists cats stamp t',
    process_emails E limit w =
      ((if completes E limit w
        then Some {| total_emails :=
                       length (rows_of E (fetched E limit w) (S (tick w)));
                     categories := cats;
                     stats_processed_at := stamp |}
        else None),
       mkWorld
         (append_rows (emails_csv w) (rows_of E (fetched E limit w) (S (tick w))))
         (store_drafts (rows_of E (fetched E limit w) (S (tick w))) (drafts w))
         (sent w)
         (created_drafts w ++
            map provider_draft (rows_of E (fetched E limit w) (S (tick w))))
         (sent_mail w) t')
    /\ three_keys cats
    /\ forall c, bucket cats c =
         count_category c (rows_of E (fetched E limit w) (S (tick w))).
Proof.
  unfold process_emails, completes, fetched, gmail_fetch_emails.
  unfold bind at 1.
  destruct (api_messages E (tick w) limit) as [msgs|]; cbn [fmap option_fmap option_map default].
  - unfold bind at 1.
    destruct (for_each_run E (fetch_emails msgs)
                ([], zero_categories) (advance w) three_keys_zero)
      as (cats & t' & Hrun & Hk & Hc).
    rewrite Hrun. cbn [tick advance fst snd emails_csv drafts sent created_drafts
      sent_mail].
    destruct (all_classified E (fetch_emails msgs) (S (tick w))).
    + eexists cats, _, _. split; [reflexivity|]. split; [done|].
      intros c. rewrite Hc. cbn [snd]. by rewrite bucket_zero.
    + eexists cats, [], _. split; [reflexivity|]. split; [done|].
      intros c. rewrite Hc. cbn [snd]. by rewrite bucket_zero.
  - exists zero_categories, [], (S (tick w)).
    split; [by rewrite app_nil_r|]. split; [apply three_keys_zero|].
    intros c. by rewrite bucket_zero.
Qed.

Lemma fetched_some E limit w messages :
  api_messages E (tick w) limit = Some messages ->
  fetched E limit w = fetch_emails messages.
Proof. unfold fetched. by intros ->. Qed.

Lemma fetched_none E limit w :
  api_messages E (tick w) limit = None -> fetched E limit w = [].
Proof. unfold fetched. by intros ->. Qed.

Lemma rows_of_length E emails t : length (rows_of E emails t) <= length emails.
Proof.
  revert t. induction emails as [|e es IH]; intros t; [done|].
  cbn [rows_of]. destruct (classified E e t); [|simpl; lia].
  rewrite !length_cons. specialize (IH (4 + t)). lia.
Qed.

(** The rows are those of a first stretch of the emails, in order. *)
Lemma rows_of_prefix E emails t :
  map pe_email (rows_of E emails t) `prefix_of` emails.
Proof.
  revert t. induction emails as [|e es IH]; intros t; simpl; [done|].
  destruct (classified E e t); simpl; [|apply prefix_nil].
  by apply prefix_cons.
Qed.

(** They are those of all emails when every classification returns. *)
Lemma rows_of_emails E emails t :
  all_classified E emails t = true -> map pe_email (rows_of E emails t) = emails.
Proof.
  revert t. induction emails as [|e es IH]; intros t; simpl; [done|].
  destruct (classified E e t); simpl; [|done]. intros H. by rewrite IH.
Qed.

Lemma rows_of_lookup E emails t k row :
  rows_of E emails t !! k = Some row ->
  exists email,
    emails !! k = Some email /\ row = row_of E email (t + 4 * k) /\
    classified E email (t + 4 * k) = true.
Proof.
  revert t k. induction emails as [|e es IH]; intros t k; [done|].
  cbn [rows_of]. destruct (classified E e t) eqn:Ec; [|done].
  destruct k as [|k].
  - intros [= <-]. exists e. by rewrite Nat.mul_0_r, Nat.add_0_r.
  - intros H. change (rows_of E es (4 + t) !! k = Some row) in H.
    destruct (IH _ _ H) as (email & He & Hr & Hc).
    exists email. replace (t + 4 * S k) with (4 + t + 4 * k) by lia. done.
Qed.

(** The email at position [k] has its row when the classifications up to it
    return. *)
Lemma rows_of_reach E emails t k email :
  emails !! k = Some email ->
  k <= length (rows_of E emails t) ->
  classified E email (t + 4 * k) = true ->
  rows_of E emails t !! k = Some (row_of E email (t + 4 * k)).
Proof.
  revert t k. induction emails as [|e es IH]; intros t k; [done|].
  cbn [rows_of]. destruct k as [|k].
  - intros [= ->] _. rewrite Nat.mul_0_r, Nat.add_0_r. by intros ->.
  - intros He. change (es !! k = Some email) in He.
    destruct (classified E e t); [|simpl; lia].
    rewrite length_cons. intros Hk Hc.
    replace (t + 4 * S k) with (4 + t + 4 * k) in * by lia.
    change (rows_of E es (4 + t) !! k = Some (row_of E email (4 + t + 4 * k))).
    apply IH; [done|lia|done].
Qed.

Lemma rows_of_Forall E (P : ProcessedEmail -> Prop) emails t :
  (forall e t', classified E e t' = true -> P (row_of E e t')) ->
  Forall P (rows_of E emails t).
Proof.
  intros H. revert t. induction emails as [|e es IH]; intros t; simpl;
    [constructor|].
  destruct (classified E e t) eqn:Ec; constructor; auto.
Qed.

Lemma rows_of_elem E emails t row :
  row ∈ rows_of E emails t -> exists email t', row = row_of E email t'.
Proof.
  intros Hin.
  pose proof (rows_of_Forall E (fun r => exists email t', r = row_of E email t')
                emails t) as H.
  rewrite Forall_forall in H. apply H; [|done]. intros e t' _. by eexists _, _.
Qed.

(** A row is written only under a category the counters have. *)
Lemma row_of_label E e t :
  classified E e t = true -> is_label (pe_category (row_of E e t)).
Proof.
  unfold classified. intros [_ Hb]%andb_true_iff. by apply is_bucket_label.
Qed.

Lemma count_three rows :
  Forall (fun row => is_label (pe_category row)) rows ->
  count_category URGENT rows + count_category IMPORTANT rows
    + count_category LOW_PRIORITY rows = length rows.
Proof.
  induction 1 as [|row rows Hrow _ IH]; [done|].
  rewrite !count_category_cons. simpl length. rewrite <- IH.
  destruct Hrow as [Hr | [Hr | Hr]]; rewrite Hr;
    repeat case_decide; try discriminate; try congruence; lia.
Qed.

Lemma append_rows_default file rows :
  default [] (append_rows file rows) = default [] file ++ rows.
Proof. destruct rows; simpl; [by rewrite app_nil_r|done]. Qed.

(** The rows a run wrote are the rows of the closed form. *)
Lemma written_rows E limit w :
  written E limit w = rows_of E (fetched E limit w) (S (tick w)).
Proof.
  unfold written.
  destruct (process_emails_run E limit w) as (cats & stamp & t' & -> & _).
  cbn [snd emails_csv]. rewrite append_rows_default.
  by rewrite drop_app_length.
Qed.

Lemma store_drafts_snoc rows row m :
  store_drafts (rows ++ [row]) m =
  <[id (pe_email row) := draft_of_email row]> (store_drafts rows m).
Proof. unfold store_drafts. by rewrite fold_left_app. Qed.

(** The draft files after a run: under each identifier, the draft of the
    last row with that identifier, or what was there. *)
Lemma store_drafts_lookup rows m i :
  store_drafts rows m !! i =
  match last (filter (fun row => id (pe_email row) = i) rows) with
  | Some row => Some (draft_of_email row)
  | None => m !! i
  end.
Proof.
  induction rows as [|row rows IH] using rev_ind; [done|].
  rewrite store_drafts_snoc, filter_app.
  destruct (decide (id (pe_email row) = i)) as [Heq|Hne].
  - rewrite (filter_cons_True _ row) by done. rewrite filter_nil.
    rewrite last_snoc. rewrite <- Heq. by rewrite lookup_insert_eq.
  - rewrite (filter_cons_False _ row) by done. rewrite filter_nil, app_nil_r.
    by rewrite lookup_insert_ne.
Qed.

(** What a run leaves, in terms of the rows it wrote. *)
Lemma process_emails_world E limit w :
  default [] (emails_csv (process_emails E limit w).2) =
    default [] (emails_csv w) ++ written E limit w /\
  drafts (process_emails E limit w).2 =
    store_drafts (written E limit w) (drafts w) /\
  sent (process_emails E limit w).2 = sent w /\
  created_drafts (process_emails E limit w).2 =
    created_drafts w ++ map provider_draft (written E limit w) /\
  sent_mail (process_emails E limit w).2 = sent_mail w /\
  (written E limit w = [] ->
   emails_csv (process_emails E limit w).2 = emails_csv w).
Proof.
  rewrite written_rows.
  destruct (process_emails_run E limit w) as (cats & stamp & t' & -> & _).
  cbn [snd emails_csv drafts sent created_drafts sent_mail].
  rewrite append_rows_default. repeat split. by intros ->.
Qed.

(** What a run returns, in terms of the rows it wrote. *)
Lemma process_emails_result E limit w stats :
  (process_emails E limit w).1 = Some stats ->
  map pe_email (written E limit w) = fetched E limit w /\
  is_Some (api_messages E (tick w) limit) /\
  total_emails stats = length (fetched E limit w) /\
  three_keys (categories stats) /\
  forall c, bucket (categories stats) c = count_category c (written E limit w).
Proof.
  rewrite written_rows.
  destruct (process_emails_run E limit w) as (cats & stamp & t' & -> & Hk & Hc).
  cbn [fst]. unfold completes.
  destruct (api_messages E (tick w) limit) as [msgs|] eqn:Em; [|done].
  rewrite (fetched_some _ _ _ _ Em) in *.
  destruct (all_classified E (fetch_emails msgs) (S (tick w))) eqn:Ea; [|done].
  intros [= <-]. cbn [total_emails categories].
  pose proof (rows_of_emails E (fetch_emails msgs) (S (tick w)) Ea) as Hrows.
  split; [done|]. split; [by eexists|]. split; [|by split].
  apply (f_equal length) in Hrows. by rewrite length_map in Hrows.
Qed.

End PipelineFacts.

(** * The claims *)

Import Re Effects Spec OllamaClient GmailClient Cleaner EmailProcessor Examples.

(** C1, as stated, fails: the text " Let me go" is cleaned to "Let me go"
    (the opener is not at the start of its line before trimming), and
    cleaning that again removes the line. *)
Lemma clean_email_body_not_idempotent :
  clean_email_body (s2l " Let me go") = s2l "Let me go" /\
  clean_email_body (clean_email_body (s2l " Let me go")) = [] /\
  clean_email_body (clean_email_body (s2l " Let me go"))
    <> clean_email_body (s2l " Let me go").
Proof. vm_compute. repeat split; discriminate. Qed.

(** C1, amended: cleaning a cleaned text changes nothing whenever none of
    the six removal patterns matches the cleaned text; collapsing blank
    lines and trimming are idempotent by themselves. *)
Theorem clean_email_body_idempotent_when_artifact_free (x : str) :
  artifact_free (clean_email_body x) ->
  clean_email_body (clean_email_body x) = clean_email_body x.
Proof.
  intros (H1 & H2 & H3 & H4 & H5 & H6).
  assert (Hrem : remove_artifacts (clean_email_body x) = clean_email_body x).
  { unfold remove_artifacts.
    by rewrite (sub_no_match _ _ _ _ H1), (sub_no_match _ _ _ _ H2),
      (sub_no_match _ _ _ _ H3), (sub_no_match _ _ _ _ H4),
      (sub_no_match _ _ _ _ H5), (sub_no_match _ _ _ _ H6). }
  unfold clean_email_body at 1. rewrite Hrem.
  unfold clean_email_body. apply tidy_idem.
Qed.

Lemma clean_email_body_idempotent_witness :
  clean_email_body scenario_reply = scenario_cleaned /\
  artifact_free (clean_email_body scenario_reply) /\
  clean_email_body (clean_email_body scenario_reply)
    = clean_email_body scenario_reply.
Proof.
  assert (H : artifact_free (clean_email_body scenario_reply))
    by (vm_compute; repeat split).
  split; [by vm_compute|]. split; [exact H|].
  exact (clean_email_body_idempotent_when_artifact_free scenario_reply H).
Defined.

(** C2, as stated, fails on the rationale: with the rationale line left
    blank after its label, the remainder of the "Rationale:" line is empty,
    but the code returns the next line, because the whitespace skipped after
    the label may include line breaks.  Nor is there a result for every
    response: on a confidence of 4301 digits the conversion raises. *)
Lemma rationale_is_not_the_rest_of_its_line :
  parse_classification blank_rationale_response =
    Some {| category := URGENT; confidence := 87;
            rationale := s2l "Confidence: 87" |} /\
  spec_rationale_line blank_rationale_response = [] /\
  rationale <$> parse_classification blank_rationale_response
    <> Some (spec_rationale_line blank_rationale_response) /\
  parse_classification long_confidence_response = None.
Proof. vm_compute. repeat split; discriminate. Qed.

(** C2, amended: the parser returns a result for every response whose first
    run of digits after a "Confidence:" label has at most 4300 digits, and
    whenever it returns a result the three fields follow the lenient policy,
    each with its own default.  Category: at the first position where the
    label "Category:", optional whitespace and one of the three tokens occur
    (label and token in any letter case), the token as it is written, put in
    upper case; LOW_PRIORITY otherwise.  Confidence: at the first position
    where "Confidence:", optional whitespace and a run of digits occur, the
    value of the run; 0 otherwise.  Rationale: after the first "Rationale:"
    and the whitespace that follows it (line breaks included), the text up to
    the end of that line, trimmed; empty otherwise.  The scenario of the
    specification yields URGENT, 87, "deadline today". *)
Theorem parse_classification_policy :
  (forall response,
     over_limit response = false ->
     parse_classification response =
       Some {| category := spec_category response;
               confidence := spec_confidence response;
               rationale := spec_rationale response |}) /\
  (forall response c,
     parse_classification response = Some c ->
     category c = spec_category response /\
     confidence c = spec_confidence response /\
     rationale c = spec_rationale response) /\
  parse_classification scenario_response =
    Some {| category := URGENT; confidence := 87;
            rationale := s2l "deadline today" |}.
Proof.
  split; [|split].
  - intros response Ho. by rewrite parse_classification_spec, Ho.
  - intros response c. rewrite parse_classification_spec.
    destruct (over_limit response); [done|]. by intros [= <-].
  - by vm_compute.
Qed.

Lemma parse_classification_policy_witness :
  over_limit overconfident_response = false /\
  parse_classification overconfident_response =
    Some {| category := spec_category overconfident_response;
            confidence := spec_confidence overconfident_response;
            rationale := spec_rationale overconfident_response |}.
Proof.
  assert (H : over_limit overconfident_response = false)
    by (vm_compute; reflexivity).
  split; [exact H|].
  exact (proj1 parse_classification_policy overconfident_response H).
Defined.

(** C3, as stated, fails: a response with no category token but with a
    confidence and a rationale keeps both; only the category defaults. *)
Lemma missing_category_keeps_other_fields :
  nowhere category_at no_category_response /\
  parse_classification no_category_response =
    Some {| category := LOW_PRIORITY; confidence := 50;
            rationale := s2l "because" |} /\
  parse_classification no_category_response
    <> Some {| category := LOW_PRIORITY; confidence := 0; rationale := [] |}.
Proof.
  split; [apply first_at_none; by vm_compute|].
  vm_compute. split; [reflexivity|discriminate].
Qed.

Lemma nowhere_confidence response :
  nowhere confidence_at response -> over_limit response = false.
Proof.
  intros H%first_at_none. unfold confidence_at in H.
  rewrite first_at_fmap in H. unfold over_limit.
  by destruct (first_at digits_at response).
Qed.

(** C3, amended: for every response in which no category token can be
    parsed at any position, the category of the result is exactly
    LOW_PRIORITY, while confidence and rationale are parsed on their own (a
    result is returned when the run of digits has at most 4300 digits); the
    result is LOW_PRIORITY, 0 and the empty rationale if no confidence and no
    "Rationale:" label can be parsed at any position either. *)
Theorem missing_category_defaults (response : str) :
  nowhere category_at response ->
  (forall c,
     parse_classification response = Some c ->
     category c = LOW_PRIORITY /\
     confidence c = spec_confidence response /\
     rationale c = spec_rationale response) /\
  (over_limit response = false -> is_Some (parse_classification response)) /\
  (nowhere confidence_at response ->
   nowhere rationale_at response ->
   parse_classification response =
     Some {| category := LOW_PRIORITY; confidence := 0; rationale := [] |}).
Proof.
  intros Hc%first_at_none. rewrite parse_classification_spec.
  split; [|split].
  - intros c. destruct (over_limit response); [done|]. intros [= <-].
    cbn [category confidence rationale]. unfold spec_category.
    by rewrite Hc.
  - by intros ->.
  - intros Hn Hr. rewrite (nowhere_confidence _ Hn).
    apply first_at_none in Hn, Hr.
    unfold spec_category, spec_confidence, spec_rationale.
    by rewrite Hc, Hn, Hr.
Qed.

Lemma missing_category_defaults_witness :
  parse_classification (s2l "no answer") =
    Some {| category := LOW_PRIORITY; confidence := 0; rationale := [] |}.
Proof.
  refine (proj2 (proj2 (missing_category_defaults (s2l "no answer") _)) _ _);
    apply first_at_none; vm_compute; reflexivity.
Defined.

(** C8, as stated, fails: the digits after "Confidence:" are taken as they
    are, so a response can put 250 in the confidence field. *)
Lemma confidence_can_exceed_100 :
  confidence <$> parse_classification overconfident_response = Some 250%Z /\
  ~ (forall c, parse_classification overconfident_response = Some c ->
               (0 <= confidence c <= 100)%Z).
Proof.
  split; [by vm_compute|]. intros H.
  specialize (H _ eq_refl). vm_compute in H. destruct H as [_ H]. by apply H.
Qed.

Lemma rows_of_nonneg E emails t :
  Forall (fun row => (0 <= pe_confidence row)%Z) (rows_of E emails t).
Proof. apply rows_of_Forall. intros e t' _. apply spec_confidence_nonneg. Qed.

(** C8, amended: the confidence of every classification result is a
    non-negative integer, the value of the first run of digits after a
    "Confidence:" label, or 0 without one, with no upper bound enforced (a
    result is returned when the run has at most 4300 digits); and
    [process_emails] keeps the record store free of negative confidences. *)
Theorem confidence_nonneg_and_persisted :
  (forall response c,
     parse_classification response = Some c ->
     (0 <= confidence c)%Z /\
     confidence c = default 0%Z (decimal <$> first_at digits_at response)) /\
  (forall response,
     over_limit response = false -> is_Some (parse_classification response)) /\
  (forall E limit w, rows_nonneg w -> rows_nonneg (process_emails E limit w).2).
Proof.
  split; [|split].
  - intros response c. rewrite parse_classification_spec.
    destruct (over_limit response); [done|]. intros [= <-].
    cbn [confidence]. split; [apply spec_confidence_nonneg|].
    unfold spec_confidence, confidence_at. by rewrite first_at_fmap.
  - intros response Ho. by rewrite parse_classification_spec, Ho.
  - intros E limit w Hw rows Hrows.
    destruct (process_emails_world E limit w) as (Hcsv & _).
    rewrite Hrows in Hcsv. simpl in Hcsv. rewrite Hcsv.
    apply Forall_app. split.
    + destruct (emails_csv w) as [old|] eqn:Eold; simpl; [by apply Hw|done].
    + rewrite written_rows. apply rows_of_nonneg.
Qed.

Lemma confidence_nonneg_and_persisted_witness :
  rows_nonneg empty_world /\
  rows_nonneg (process_emails friendly 2 empty_world).2.
Proof.
  assert (H : rows_nonneg empty_world) by (intros rows Hrows; discriminate Hrows).
  split; [exact H|].
  exact (proj2 (proj2 confidence_nonneg_and_persisted) friendly 2 empty_world H).
Defined.

(** C4: with [confirm] false, [send_drafted_email] leaves the world as it
    was for every identifier and recipient (the draft store and the sent
    partition are unchanged, no call reaches the mailbox's send operation,
    nothing outside is called at all), and for the identifier of a stored
    draft it returns the preview with the recipient, the stored subject and
    the cleaned body. *)
Theorem send_drafted_email_preview (E : Env) (draft_id recipient : str)
    (w : World) :
  (send_drafted_email E draft_id recipient false w).2 = w /\
  sent_mail (send_drafted_email E draft_id recipient false w).2 = sent_mail w /\
  drafts (send_drafted_email E draft_id recipient false w).2 = drafts w /\
  (forall draft,
     drafts w !! draft_id = Some draft ->
     (send_drafted_email E draft_id recipient false w).1 =
       Some (Preview recipient (d_subject draft)
               (clean_email_body (d_draft_reply draft)))).
Proof.
  unfold send_drafted_email, bind, lookup_draft.
  destruct (drafts w !! draft_id) as [draft|]; simpl.
  - repeat split; try done. by intros ? [= <-].
  - repeat split; try done.
Qed.

Lemma send_drafted_email_preview_witness :
  drafts one_draft !! s2l "m1" = Some draft_1 /\
  (send_drafted_email friendly (s2l "m1") (s2l "sam@example.org") false
     one_draft).1 =
    Some (Preview (s2l "sam@example.org") (s2l "Lunch") scenario_cleaned).
Proof.
  assert (H : drafts one_draft !! s2l "m1" = Some draft_1)
    by (vm_compute; reflexivity).
  split; [exact H|].
  rewrite (proj2 (proj2 (proj2 (send_drafted_email_preview friendly (s2l "m1")
             (s2l "sam@example.org") one_draft))) draft_1 H).
  vm_compute. reflexivity.
Defined.



Lemma value_counts_lookup (rows : list ProcessedEmail) (c : str) :
  value_counts (map pe_category rows) !! c =
  match count_category c rows with
  | O => None
  | S n => Some (S n)
  end.
Proof.
  unfold count_category. induction rows as [|row rows IH]; [done|].
  change (map pe_category (row :: rows))
    with (pe_category row :: map pe_category rows).
  cbn [value_counts]. destruct (decide (pe_category row = c)) as [Heq|Hne].
  - rewrite filter_cons_True by done. rewrite Heq, lookup_insert_eq, IH.
    simpl. by destruct (length _).
  - rewrite filter_cons_False by done. by rewrite lookup_insert_ne.
Qed.

Lemma process_emails_returns E limit w :
  completes E limit w = true -> is_Some (process_emails E limit w).1.
Proof.
  intros Hc.
  destruct (process_emails_run E limit w) as (cats & stamp & t' & -> & _).
  rewrite Hc. by eexists.
Qed.

(** C6: [get_daily_stats] without a record store returns total 0 and the
    three categories at 0; with a record store it returns the number of rows
    and a mapping that holds exactly the categories that occur in the rows,
    each with its count (a category with no row is absent, not 0); whereas
    the mapping [process_emails] returns always has exactly the three
    buckets. *)
Theorem stats_zero_fill_policies :
  (forall E d s cd sm t,
     get_daily_stats E (mkWorld None d s cd sm t) =
       (Some {| total_emails := 0;
                categories := zero_categories;
                stats_processed_at := api_now E t |},
        mkWorld None d s cd sm (S t))) /\
  (zero_categories !! URGENT = Some 0 /\
   zero_categories !! IMPORTANT = Some 0 /\
   zero_categories !! LOW_PRIORITY = Some 0 /\
   dom zero_categories = {[URGENT; IMPORTANT; LOW_PRIORITY]}) /\
  (forall E rows d s cd sm t,
     exists stats,
       (get_daily_stats E (mkWorld (Some rows) d s cd sm t)).1 = Some stats /\
       total_emails stats = length rows /\
       forall c, categories stats !! c =
                 match count_category c rows with
                 | O => None
                 | S n => Some (S n)
                 end) /\
  (forall E limit w stats,
     (process_emails E limit w).1 = Some stats ->
     dom (categories stats) = {[URGENT; IMPORTANT; LOW_PRIORITY]} /\
     total_emails stats = length (fetched E limit w)).
Proof.
  split; [done|]. split.
  { repeat split; first [exact (three_keys_dom _ three_keys_zero)
                        | vm_compute; reflexivity]. }
  split.
  - intros E rows d s cd sm t. eexists. split; [reflexivity|].
    split; [done|]. intros c. apply value_counts_lookup.
  - intros E limit w stats Hs.
    destruct (process_emails_result E limit w stats Hs) as (_ & _ & Ht & Hk & _).
    split; [by apply three_keys_dom|done].
Qed.

Lemma stats_zero_fill_policies_witness :
  exists stats,
    (process_emails friendly 2 empty_world).1 = Some stats /\
    dom (categories stats) = {[URGENT; IMPORTANT; LOW_PRIORITY]}.
Proof.
  destruct (process_emails_returns friendly 2 empty_world
              ltac:(vm_compute; reflexivity)) as [stats H].
  exists stats. split; [exact H|].
  exact (proj1 (proj2 (proj2 (proj2 stats_zero_fill_policies))
                  friendly 2 empty_world stats H)).
Defined.

(** C7 fails on the code.  The source says of the step after a successful
    call: "Clean the output by removing the input prompt if present"; what it
    does is keep the text after the last occurrence of the prompt.  When the
    response is the prompt followed by a completion that holds the prompt
    once more, the completion up to that occurrence is lost with the echoed
    prefix: with the prompt "p" and the completion "qpr" the result is "r",
    and a reply that quotes the prompt of [generate_reply] between "Sure."
    and "Thanks." comes back as "Thanks.". *)
Theorem echoed_prefix_is_not_all_that_is_stripped :
  (_generate (fun _ (w : unit) => (Some (s2l "p" ++ s2l "qpr"), w)) (s2l "p") tt).1
    = Some (s2l "r") /\
  (_generate (fun _ (w : unit) => (Some (s2l "p" ++ s2l "qpr"), w)) (s2l "p") tt).1
    <> Some (strip (s2l "qpr")) /\
  (let prompt := reply_prompt (s2l "Lunch") (s2l "Hello") URGENT in
   let completion := s2l "Sure." ++ [nl] ++ prompt ++ [nl] ++ s2l "Thanks." in
   (generate_reply (fun _ (w : unit) => (Some (prompt ++ completion), w))
      (s2l "Lunch") (s2l "Hello") URGENT tt).1 = Some (s2l "Thanks.") /\
   strip completion <> s2l "Thanks.").
Proof. vm_compute. repeat split; discriminate. Qed.

(** C9 fails on the code: the body of a fetched email is the [data] field of
    the text/plain parts (or of the payload) as the provider sent it, in the
    transport encoding; nothing decodes it.  For a message whose plain-text
    part is "Hello", the body is "SGVsbG8=". *)
Theorem fetch_emails_body_is_not_decoded :
  map body (fetch_emails [message_1; message_2]) =
    [urlsafe_b64encode (s2l "Hello"); urlsafe_b64encode (s2l "Hello")] /\
  urlsafe_b64encode (s2l "Hello") = s2l "SGVsbG8=" /\
  map body (fetch_emails [message_1; message_2]) <> [s2l "Hello"; s2l "Hello"] /\
  (forall data, _get_body_from_parts [mkPart (s2l "text/plain") (Some data)] = data) /\
  (forall hs data, _get_body_from_payload (mkPayload hs None (Some data)) = data).
Proof.
  split; [by vm_compute|]. split; [by vm_compute|]. split.
  - vm_compute. discriminate.
  - split.
    + intros data. simpl. apply app_nil_r.
    + done.
Qed.

Lemma store_drafts_unique rows m row :
  NoDup (map (fun r => id (pe_email r)) rows) -> row ∈ rows ->
  store_drafts rows m !! id (pe_email row) = Some (draft_of_email row).
Proof.
  induction rows as [|r rows IH] using rev_ind; [by intros _ ?%elem_of_nil|].
  rewrite map_app. intros (Hnd & Hdisj & _)%NoDup_app.
  rewrite store_drafts_snoc.
  intros [Hin|Hin%list_elem_of_singleton]%elem_of_app.
  - rewrite lookup_insert_ne; [by apply IH|].
    intros Heq. apply (Hdisj (id (pe_email row))).
    + apply list_elem_of_fmap. by exists row.
    + rewrite <- Heq. simpl. apply list_elem_of_here.
  - subst. apply lookup_insert_eq.
Qed.

Lemma written_prefix E limit w :
  map pe_email (written E limit w) `prefix_of` fetched E limit w.
Proof. rewrite written_rows. apply rows_of_prefix. Qed.

(** C10: for every email a run of [process_emails] processed, that is, every
    email whose row the run wrote (the emails fetched up to the first one on
    which the run raised, all of them when it returns), identifiers being
    unique: the draft stored under its identifier has the email's own
    subject, the draft created at the provider for it has that subject
    prefixed with "Re: " (a different text) and the same body, and a
    confirmed [send_drafted_email] on that identifier hands the mailbox the
    unprefixed subject. *)
Theorem draft_subject_unprefixed (E : Env) (limit : nat) (w : World) :
  NoDup (map id (fetched E limit w)) ->
  map pe_email (written E limit w) `prefix_of` fetched E limit w /\
  (is_Some (process_emails E limit w).1 ->
   map pe_email (written E limit w) = fetched E limit w) /\
  forall e, e ∈ map pe_email (written E limit w) ->
    exists d,
      drafts (process_emails E limit w).2 !! id e = Some d /\
      d_subject d = subject e /\
      (sender e, s2l "Re: " ++ subject e, d_draft_reply d)
        ∈ created_drafts (process_emails E limit w).2 /\
      s2l "Re: " ++ subject e <> subject e /\
      forall E' recipient,
        sent_mail (send_drafted_email E' (id e) recipient true
                     (process_emails E limit w).2).2 =
        sent_mail (process_emails E limit w).2 ++
          [(recipient, subject e, clean_email_body (d_draft_reply d))].
Proof.
  intros Hnd. split; [apply written_prefix|]. split.
  { intros [stats Hs]. by destruct (process_emails_result E limit w stats Hs). }
  intros e (row & -> & Hrow)%list_elem_of_fmap.
  destruct (process_emails_world E limit w) as (_ & Hd & _ & Hc & _).
  assert (Hids : NoDup (map (fun r => id (pe_email r)) (written E limit w))).
  { destruct (written_prefix E limit w) as [rest Hrest].
    rewrite Hrest, map_app in Hnd. apply NoDup_app in Hnd as [Hnd _].
    by rewrite map_map in Hnd. }
  exists (draft_of_email row).
  assert (Hdraft : drafts (process_emails E limit w).2 !! id (pe_email row)
                   = Some (draft_of_email row)).
  { rewrite Hd. by apply store_drafts_unique. }
  split; [exact Hdraft|]. split; [done|]. split.
  { rewrite Hc. apply elem_of_app. right. apply list_elem_of_fmap.
    by exists row. }
  split.
  { intros Heq. apply (f_equal length) in Heq. simpl in Heq. lia. }
  intros E' recipient.
  unfold send_drafted_email, bind, lookup_draft, gmail_send_email.
  cbn [fst snd]. rewrite Hdraft. simpl.
  by destruct (api_send_email E' _ _ _ _).
Qed.

Lemma draft_subject_unprefixed_witness :
  map pe_email (written runaway 2 empty_world)
    `prefix_of` fetched runaway 2 empty_world /\
  map pe_email (written friendly 2 empty_world) = fetched friendly 2 empty_world.
Proof.
  assert (Hnd : forall E, fetched E 2 empty_world = fetched friendly 2 empty_world ->
                  NoDup (map id (fetched E 2 empty_world))).
  { intros E ->. vm_compute.
    repeat constructor; intros H; inversion H; subst;
      try discriminate; match goal with Hx : _ |- _ => inversion Hx end. }
  split.
  - exact (proj1 (draft_subject_unprefixed runaway 2 empty_world
                    (Hnd runaway eq_refl))).
  - exact (proj1 (proj2 (draft_subject_unprefixed friendly 2 empty_world
                           (Hnd friendly eq_refl)))
             (process_emails_returns friendly 2 empty_world
                ltac:(vm_compute; reflexivity))).
Defined.


(** * Further properties of the code *)

(** ** process_emails *)

Lemma written_labels E limit w :
  Forall (fun row => is_label (pe_category row)) (written E limit w).
Proof. rewrite written_rows. apply rows_of_Forall. intros e t. apply row_of_label. Qed.

(** X1: when [process_emails] returns, the total it reports is the number
    of fetched emails, which is the number of rows the run wrote, and its
    mapping holds exactly the three buckets, which add up to the total. *)
Theorem process_emails_buckets_add_up (E : Env) (limit : nat) (w : World)
    (stats : Stats) :
  (process_emails E limit w).1 = Some stats ->
  total_emails stats = length (fetched E limit w) /\
  length (written E limit w) = total_emails stats /\
  dom (categories stats) = {[URGENT; IMPORTANT; LOW_PRIORITY]} /\
  exists u i l,
    categories stats !! URGENT = Some u /\
    categories stats !! IMPORTANT = Some i /\
    categories stats !! LOW_PRIORITY = Some l /\
    u + i + l = total_emails stats.
Proof.
  intros Hs.
  destruct (process_emails_result E limit w stats Hs) as (Hw & _ & Ht & Hk & Hc).
  assert (Hlen : length (written E limit w) = total_emails stats).
  { rewrite Ht, <- Hw. by rewrite length_map. }
  split; [done|]. split; [done|]. split; [by apply three_keys_dom|].
  destruct (three_keys_label _ URGENT Hk) as [u Hu]; [by left|].
  destruct (three_keys_label _ IMPORTANT Hk) as [i Hi]; [by right; left|].
  destruct (three_keys_label _ LOW_PRIORITY Hk) as [l Hl]; [by right; right|].
  exists u, i, l. do 3 (split; [done|]).
  pose proof (Hc URGENT) as H1. pose proof (Hc IMPORTANT) as H2.
  pose proof (Hc LOW_PRIORITY) as H3. unfold bucket in H1, H2, H3.
  rewrite Hu in H1. rewrite Hi in H2. rewrite Hl in H3. simpl in H1, H2, H3.
  rewrite H1, H2, H3, <- Hlen. apply count_three, written_labels.
Qed.

Lemma process_emails_buckets_add_up_witness :
  exists stats,
    (process_emails friendly 2 empty_world).1 = Some stats /\
    total_emails stats = length (fetched friendly 2 empty_world).
Proof.
  destruct (process_emails_returns friendly 2 empty_world
              ltac:(vm_compute; reflexivity)) as [stats H].
  exists stats. split; [exact H|].
  exact (proj1 (process_emails_buckets_add_up friendly 2 empty_world stats H)).
Defined.

(** X2: [process_emails] only appends to the record store, also when it
    raises: the rows that were there stay, in place; the rows the run wrote
    follow them, one per email, for a first stretch of the fetched emails in
    fetch order, and for all of them when the run returns.  The file comes
    into being with the first row, so a run that writes nothing leaves a
    missing file missing. *)
Theorem process_emails_appends_rows (E : Env) (limit : nat) (w : World) :
  default [] (emails_csv (process_emails E limit w).2) =
    default [] (emails_csv w) ++ written E limit w /\
  map pe_email (written E limit w) `prefix_of` fetched E limit w /\
  (is_Some (process_emails E limit w).1 ->
   map pe_email (written E limit w) = fetched E limit w) /\
  (emails_csv (process_emails E limit w).2 = None <->
   emails_csv w = None /\ written E limit w = []).
Proof.
  destruct (process_emails_world E limit w) as (Hcsv & _ & _ & _ & _ & Hnone).
  split; [done|]. split; [apply written_prefix|]. split.
  { intros [stats Hs]. by destruct (process_emails_result E limit w stats Hs). }
  split.
  - intros Hn. rewrite Hn in Hcsv. simpl in Hcsv.
    symmetry in Hcsv. apply app_eq_nil in Hcsv as [Hold Hw].
    split; [|done]. rewrite <- (Hnone Hw). exact Hn.
  - intros [Hold Hw]. by rewrite (Hnone Hw).
Qed.

(** X3: [process_emails] sends no mail and leaves the sent partition alone;
    the drafts it creates at the provider are one per row it wrote, in
    order, each addressed to the sender of the email, under the subject
    prefixed with "Re: ", with the draft reply of the row as body. *)
Theorem process_emails_mailbox_calls (E : Env) (limit : nat) (w : World) :
  sent (process_emails E limit w).2 = sent w /\
  sent_mail (process_emails E limit w).2 = sent_mail w /\
  created_drafts (process_emails E limit w).2 =
    created_drafts w ++
    map (fun row => (sender (pe_email row),
                     s2l "Re: " ++ subject (pe_email row),
                     pe_draft_reply row)) (written E limit w).
Proof.
  destruct (process_emails_world E limit w) as (_ & _ & Hs & Hc & Hm & _).
  by repeat split.
Qed.

Lemma generated_down E t prompt :
  api_generate E t prompt = None -> generated E t prompt = [].
Proof. unfold generated. by intros ->. Qed.

Lemma classified_down E email t :
  api_generate E t
    (categorize_prompt (subject email) (body email) (sender email)) = None ->
  classified E email t = true.
Proof. intros H. unfold classified. by rewrite (generated_down _ _ _ H). Qed.

(** X4: a failure of the services while one email is processed stays with
    that email.  When the service fails on the classification call of the
    email fetched at position [k], and the emails before it were processed,
    the email still gets its row.  In the row a run wrote at position [k]:
    when the service failed on the classification call, the category is
    LOW_PRIORITY, the confidence 0 and the rationale empty; when it failed
    on the reply call, the draft reply is empty; when the mailbox refused
    the draft, the draft identifier is missing.  (The calls of that email are
    the calls number 1+4k to 4+4k after the start of the run.) *)
Theorem process_emails_failure_is_local (E : Env) (limit : nat) (w : World)
    (k : nat) :
  (forall email,
     fetched E limit w !! k = Some email ->
     k <= length (written E limit w) ->
     api_generate E (1 + tick w + 4 * k)
       (categorize_prompt (subject email) (body email) (sender email)) = None ->
     is_Some (written E limit w !! k)) /\
  (forall row,
     written E limit w !! k = Some row ->
     fetched E limit w !! k = Some (pe_email row) /\
     default [] (emails_csv (process_emails E limit w).2)
       !! (length (default [] (emails_csv w)) + k) = Some row /\
     (api_generate E (1 + tick w + 4 * k)
        (categorize_prompt (subject (pe_email row)) (body (pe_email row))
           (sender (pe_email row))) = None ->
      pe_category row = LOW_PRIORITY /\ pe_confidence row = 0%Z /\
      pe_rationale row = []) /\
     ((forall prompt, api_generate E (2 + tick w + 4 * k) prompt = None) ->
      pe_draft_reply row = []) /\
     ((forall text, exists error,
         api_create_draft E (3 + tick w + 4 * k) (sender (pe_email row))
           (s2l "Re: " ++ subject (pe_email row)) text = DraftError error) ->
      pe_draft_id row = None)).
Proof.
  destruct (process_emails_world E limit w) as (Hcsv & _).
  rewrite Hcsv, written_rows. split.
  - intros email He Hk Hg.
    rewrite (rows_of_reach E _ (S (tick w)) k email He Hk); [by eexists|].
    by apply classified_down.
  - intros row Hrow.
    destruct (rows_of_lookup E _ _ _ _ Hrow) as (email & He & -> & _).
    split; [done|]. split.
    { rewrite lookup_app_r by lia.
      by replace (length (default [] (emails_csv w)) + k
                  - length (default [] (emails_csv w))) with k by lia. }
    unfold row_of. cbn [pe_email pe_category pe_confidence pe_rationale
      pe_draft_reply pe_draft_id].
    split; [|split].
    + intros Hg.
      by rewrite (generated_down E (S (tick w) + 4 * k) _ Hg).
    + intros Hg.
      by rewrite (generated_down E (1 + (S (tick w) + 4 * k)) _ (Hg _)).
    + intros Hd.
      match goal with
      | |- context [api_create_draft E ?t ?a ?b ?c] =>
          destruct (Hd c) as [error Herr];
          replace (api_create_draft E t a b c) with (DraftError error)
            by (symmetry; exact Herr)
      end.
      done.
Qed.

Lemma process_emails_failure_is_local_witness :
  is_Some (written degraded 2 empty_world !! 1).
Proof.
  apply (proj1 (process_emails_failure_is_local degraded 2 empty_world 1)
           (email_of_message message_2)).
  - vm_compute. reflexivity.
  - vm_compute. lia.
  - reflexivity.
Defined.

Lemma all_classified_stop E emails t k email :
  emails !! k = Some email ->
  classified E email (t + 4 * k) = false ->
  all_classified E emails t = false /\ length (rows_of E emails t) <= k.
Proof.
  revert t k. induction emails as [|e es IH]; intros t k; [done|].
  cbn [all_classified rows_of]. destruct k as [|k].
  - intros [= ->]. rewrite Nat.mul_0_r, Nat.add_0_r. intros ->. by split.
  - intros He. change (es !! k = Some email) in He.
    replace (t + 4 * S k) with (4 + t + 4 * k) by lia. intros Hc.
    destruct (IH _ _ He Hc) as [Ha Hl].
    destruct (classified E e t); [|simpl; split; [done|lia]].
    rewrite length_cons. cbn [andb]. split; [done|lia].
Qed.

(** X22: what makes a run of [process_emails] raise.  When [fetch_emails]
    raises, the run raises and writes nothing.  When the classification of
    the email fetched at position [k] (the call number 1+4k after the start
    of the run) has, after its first "Confidence:" label with digits, a run
    of more than 4300 digits, or a category that is none of the three
    labels, the run raises and the rows it wrote are at most those of the
    [k] emails before. *)
Theorem process_emails_raises (E : Env) (limit : nat) (w : World) :
  (api_messages E (tick w) limit = None ->
   (process_emails E limit w).1 = None /\ written E limit w = []) /\
  (forall k email,
     fetched E limit w !! k = Some email ->
     let response :=
       generated E (1 + tick w + 4 * k)
         (categorize_prompt (subject email) (body email) (sender email)) in
     over_limit response = true \/ ~ is_label (spec_category response) ->
     (process_emails E limit w).1 = None /\ length (written E limit w) <= k).
Proof.
  rewrite written_rows.
  destruct (process_emails_run E limit w) as (cats & stamp & t' & -> & _).
  cbn [fst]. unfold completes. split.
  - intros Hm. by rewrite Hm, (fetched_none _ _ _ Hm).
  - intros k email He Hbad.
    assert (Hc : classified E email (S (tick w) + 4 * k) = false).
    { unfold classified. cbv zeta.
      change (S (tick w) + 4 * k) with (1 + tick w + 4 * k).
      destruct Hbad as [->|Hl]; [done|].
      apply andb_false_iff. right. apply not_true_iff_false.
      by rewrite is_bucket_label. }
    destruct (all_classified_stop E _ _ _ _ He Hc) as [Ha Hl].
    split; [|done].
    destruct (api_messages E (tick w) limit) as [msgs|] eqn:Em; [|done].
    rewrite (fetched_some _ _ _ _ Em) in Ha. by rewrite Ha.
Qed.

Lemma process_emails_raises_witness :
  ((process_emails runaway 2 empty_world).1 = None /\
   length (written runaway 2 empty_world) <= 1) /\
  ((process_emails dotting 2 empty_world).1 = None /\
   length (written dotting 2 empty_world) <= 0).
Proof.
  split.
  - apply (proj2 (process_emails_raises runaway 2 empty_world) 1
             (email_of_message message_2)); [reflexivity|].
    left. vm_compute. reflexivity.
  - apply (proj2 (process_emails_raises dotting 2 empty_world) 0
             (email_of_message message_1)); [reflexivity|].
    right. intros [H | [H | H]]; vm_compute in H; discriminate H.
Defined.

(** ** categorize_email: the category *)

(** X23: the category of a classification result is one of the three
    labels, unless the response writes the token with the dotted capital I
    (U+0130), which [re.IGNORECASE] accepts for the letter I and
    [str.upper] leaves as it is: then the category holds that character and
    is no label.  "Category: " followed by U+0130 and "MPORTANT" gives such
    a category. *)
Theorem category_is_a_label_or_dotted :
  (forall response c,
     parse_classification response = Some c ->
     is_label (category c) \/ In dotted (category c)) /\
  (forall c, In dotted c -> ~ is_label c) /\
  parse_classification dotted_response =
    Some {| category := dotted :: s2l "MPORTANT"; confidence := 0;
            rationale := [] |}.
Proof.
  split; [|split].
  - intros response c. rewrite parse_classification_spec.
    destruct (over_limit response); [done|]. intros [= <-].
    apply spec_category_cases.
  - intros c Hd [-> | [-> | ->]]; vm_compute in Hd;
      repeat (destruct Hd as [Hd|Hd]; [discriminate Hd|]); done.
  - vm_compute. reflexivity.
Qed.

Lemma category_is_a_label_or_dotted_witness :
  is_label (s2l "URGENT") \/ In dotted (s2l "URGENT").
Proof.
  exact (proj1 category_is_a_label_or_dotted scenario_response
           {| category := URGENT; confidence := 87;
              rationale := s2l "deadline today" |}
           ltac:(vm_compute; reflexivity)).
Defined.

(** ** get_daily_stats *)

Lemma sum_insert (m : gmap str nat) k n :
  map_fold (fun _ v acc => v + acc) 0 (<[k := n]> m) + bucket m k =
  n + map_fold (fun _ v acc => v + acc) 0 m.
Proof.
  unfold bucket. destruct (m !! k) as [x|] eqn:E; simpl.
  - rewrite <- insert_delete_eq.
    rewrite map_fold_insert_L; [|intros; lia|apply lookup_delete_eq].
    rewrite (map_fold_delete_L _ _ k x m); [lia|intros; lia|done].
  - rewrite map_fold_insert_L; [lia|intros; lia|done].
Qed.

Lemma sum_value_counts (column : list str) :
  map_fold (fun _ v acc => v + acc) 0 (value_counts column) = length column.
Proof.
  induction column as [|c column IH]; [done|].
  cbn [value_counts length].
  pose proof (sum_insert (value_counts column) c
                (S (default 0 (value_counts column !! c)))) as H.
  unfold bucket in H. lia.
Qed.

(** X6: [get_daily_stats] never raises and writes nothing: the only change
    to the world is one reading of the clock.  Its total is the number of
    stored rows (0 without a store), and the values of its category mapping
    add up to the total. *)
Theorem get_daily_stats_adds_up (E : Env) (w : World) :
  exists stats,
    get_daily_stats E w = (Some stats, advance w) /\
    total_emails stats = length (default [] (emails_csv w)) /\
    map_fold (fun _ v acc => v + acc) 0 (categories stats) = total_emails stats.
Proof.
  unfold get_daily_stats, bind, read_rows, now, ret. simpl.
  destruct (emails_csv w) as [rows|]; eexists; (split; [reflexivity|]); simpl.
  - split; [done|]. by rewrite sum_value_counts, length_map.
  - split; [done|]. by vm_compute.
Qed.

(** X7: the draft files after [process_emails].  Under every identifier the
    active partition holds the draft built from the last row the run wrote
    for that identifier (same reply text, category, confidence, rationale
    and timestamp as the row); under an identifier for which the run wrote
    no row it holds what it held before. *)
Theorem process_emails_drafts (E : Env) (limit : nat) (w : World) (i : str) :
  drafts (process_emails E limit w).2 !! i =
    match last (filter (fun row => id (pe_email row) = i) (written E limit w)) with
    | Some row => Some (draft_of_email row)
    | None => drafts w !! i
    end.
Proof.
  destruct (process_emails_world E limit w) as (_ & -> & _).
  apply store_drafts_lookup.
Qed.

(** X8: the categories on disk are labels.  When every stored row and every
    active draft carries one of the three labels, so do all rows and active
    drafts after [process_emails], whether the run returns or raises. *)
Theorem stored_categories_are_labels (E : Env) (limit : nat) (w : World) :
  labelled w -> labelled (process_emails E limit w).2.
Proof.
  intros [Hrows Hdrafts].
  destruct (process_emails_world E limit w) as (Hcsv & Hd & _).
  pose proof (written_labels E limit w) as Hnew.
  split.
  - intros rows Hr. rewrite Hr in Hcsv. simpl in Hcsv. rewrite Hcsv.
    apply Forall_app. split; [|done].
    destruct (emails_csv w) as [old|]; simpl; [by apply Hrows|done].
  - intros i d. rewrite Hd, store_drafts_lookup.
    destruct (last _) as [row|] eqn:El; [|apply Hdrafts].
    intros [= <-]. apply last_Some_elem_of in El.
    apply list_elem_of_filter in El as [_ El].
    rewrite Forall_forall in Hnew. by apply Hnew.
Qed.

Lemma stored_categories_are_labels_witness :
  labelled one_draft /\ labelled (process_emails runaway 2 one_draft).2.
Proof.
  assert (H : labelled one_draft).
  { split; [intros rows Hrows; discriminate Hrows|].
    intros i d Hd. unfold one_draft in Hd. cbn [drafts] in Hd.
    apply lookup_insert_Some in Hd as [[_ <-]|[_ Hd]]; [by left|].
    by rewrite lookup_empty in Hd. }
  split; [exact H|].
  exact (stored_categories_are_labels runaway 2 one_draft H).
Defined.

(** ** send_drafted_email after process_emails *)

(** X9: what the preview shows is what a confirmed call sends: when the
    call with [confirm] false returns the preview (to, subject, body), the
    call with [confirm] true on the same world makes exactly one
    [send_email] call, with these three arguments. *)
Theorem preview_is_what_is_sent (E E' : Env) (draft_id recipient : str)
    (w : World) (to subject body : str) :
  (send_drafted_email E draft_id recipient false w).1 =
    Some (Preview to subject body) ->
  sent_mail (send_drafted_email E' draft_id recipient true w).2 =
    sent_mail w ++ [(to, subject, body)].
Proof.
  unfold send_drafted_email, bind, lookup_draft, gmail_send_email.
  destruct (drafts w !! draft_id) as [draft|]; simpl; [|done].
  intros [= <- <- <-]. by destruct (api_send_email E' _ _ _ _).
Qed.

Lemma preview_is_what_is_sent_witness :
  sent_mail (send_drafted_email hostile (s2l "m1") (s2l "sam@example.org")
               true one_draft).2 =
    [(s2l "sam@example.org", s2l "Lunch", scenario_cleaned)].
Proof.
  apply (preview_is_what_is_sent friendly hostile (s2l "m1")
           (s2l "sam@example.org") one_draft).
  vm_compute. reflexivity.
Defined.

Lemma written_draft E limit w i :
  i ∈ map (fun row => id (pe_email row)) (written E limit w) ->
  exists row,
    row ∈ written E limit w /\ id (pe_email row) = i /\
    drafts (process_emails E limit w).2 !! i = Some (draft_of_email row).
Proof.
  intros (r & -> & Hr)%list_elem_of_fmap.
  destruct (process_emails_world E limit w) as (_ & -> & _).
  rewrite store_drafts_lookup.
  destruct (last (filter (fun row => id (pe_email row) = id (pe_email r))
                    (written E limit w))) as [row|] eqn:El.
  - apply last_Some_elem_of in El.
    apply list_elem_of_filter in El as [Hid Hin]. by exists row.
  - apply last_None in El.
    assert (Hin : r ∈ filter (fun row => id (pe_email row) = id (pe_email r))
                        (written E limit w))
      by (by apply list_elem_of_filter).
    rewrite El in Hin. by apply elem_of_nil in Hin.
Qed.

(** X10: a draft that was sent comes back when its email is processed
    again.  After a successful confirmed send the draft is in the sent
    partition; if a later [process_emails] writes a row for an email with
    the same identifier, the sent copy stays, a new draft stands in the
    active partition, and a confirmed send on the identifier reaches the
    mailbox a second time. *)
Theorem processing_again_makes_a_sent_draft_sendable (E0 E E' : Env)
    (limit : nat) (w0 : World) (i recipient0 recipient : str) (d0 : Draft)
    (sent_id thread_id : str) :
  drafts w0 !! i = Some d0 ->
  api_send_email E0 (tick w0) recipient0 (d_subject d0)
    (clean_email_body (d_draft_reply d0)) = Sent sent_id thread_id ->
  i ∈ map (fun row => id (pe_email row))
        (written E limit (send_drafted_email E0 i recipient0 true w0).2) ->
  let w1 := (send_drafted_email E0 i recipient0 true w0).2 in
  let w2 := (process_emails E limit w1).2 in
  drafts w1 !! i = None /\
  sent w2 !! i = Some d0 /\
  is_Some (drafts w2 !! i) /\
  length (sent_mail (send_drafted_email E' i recipient true w2).2) =
    2 + length (sent_mail w0).
Proof.
  intros Hd Hs Hi w1 w2.
  assert (Hw1 : w1 = mkWorld (emails_csv w0) (delete i (drafts w0))
                       (<[i := d0]> (sent w0)) (created_drafts w0)
                       (sent_mail w0 ++ [(recipient0, d_subject d0,
                          clean_email_body (d_draft_reply d0))]) (S (tick w0))).
  { unfold w1, send_drafted_email, bind, lookup_draft, gmail_send_email.
    rewrite Hd. simpl. by rewrite Hs. }
  fold w1 in Hi.
  destruct (written_draft E limit w1 i Hi) as (row & _ & _ & Hdraft).
  fold w2 in Hdraft.
  destruct (process_emails_world E limit w1) as (_ & _ & Hsent & _ & Hmail & _).
  fold w2 in Hsent, Hmail.
  split; [rewrite Hw1; apply lookup_delete_eq|].
  split; [rewrite Hsent, Hw1; apply lookup_insert_eq|].
  split; [by eexists|].
  unfold send_drafted_email, bind, lookup_draft, gmail_send_email.
  cbn [fst snd]. rewrite Hdraft. simpl.
  destruct (api_send_email E' _ _ _ _); simpl; rewrite !length_app, Hmail, Hw1;
    simpl; rewrite !length_app; simpl; lia.
Qed.

Lemma processing_again_makes_a_sent_draft_sendable_witness :
  let w1 := (send_drafted_email friendly (s2l "m1") (s2l "sam@example.org")
               true one_draft).2 in
  let w2 := (process_emails friendly 2 w1).2 in
  drafts w1 !! s2l "m1" = None /\
  sent w2 !! s2l "m1" = Some draft_1 /\
  is_Some (drafts w2 !! s2l "m1") /\
  length (sent_mail (send_drafted_email friendly (s2l "m1")
                       (s2l "sam@example.org") true w2).2) = 2.
Proof.
  apply (processing_again_makes_a_sent_draft_sendable friendly friendly friendly
           2 one_draft (s2l "m1") (s2l "sam@example.org")
           (s2l "sam@example.org") draft_1 (s2l "sent-1") (s2l "thread-1")).
  - vm_compute. reflexivity.
  - reflexivity.
  - rewrite written_rows, <- map_map.
    rewrite rows_of_emails by (vm_compute; reflexivity).
    vm_compute. apply list_elem_of_here.
Defined.

(** ** clean_email_body *)

Lemma rstrip_rec_last s c :
  last (rstrip_rec s) = Some c -> is_space c = false.
Proof.
  induction s as [|a s IH]; simpl; [done|].
  destruct (rstrip_rec s) as [|x r] eqn:E.
  - destruct (is_space a) eqn:Ea; simpl; [done|]. by intros [= <-].
  - rewrite last_cons_cons. apply IH.
Qed.

Lemma strip_head s c : head (strip s) = Some c -> is_space c = false.
Proof.
  unfold strip, lstrip. rewrite rstrip_rec_eq.
  pose proof (drop_while_stops is_space s) as Hs.
  destruct (drop_while is_space s) as [|c0 t]; [done|]. simpl in Hs.
  destruct (rstrip_rec_head c0 t Hs) as [x ->]. simpl. by intros [= <-].
Qed.

Lemma strip_last s c : last (strip s) = Some c -> is_space c = false.
Proof. unfold strip. rewrite rstrip_rec_eq. apply rstrip_rec_last. Qed.

Lemma rstrip_rec_prefix s : exists r, s = rstrip_rec s ++ r.
Proof.
  induction s as [|a s [r IH]]; [by exists []|]. simpl.
  destruct (rstrip_rec s) as [|x t] eqn:E.
  - destruct (is_space a); [by exists (a :: s)|]. by exists s.
  - exists r. simpl. f_equal. exact IH.
Qed.

(** The trimmed text is a stretch of the text. *)
Lemma strip_within s : exists l r, s = l ++ strip s ++ r.
Proof.
  unfold strip, lstrip. rewrite rstrip_rec_eq.
  destruct (rstrip_rec_prefix (drop_while is_space s)) as [r Hr].
  exists (take_while is_space s), r. rewrite <- Hr.
  by rewrite take_drop_while.
Qed.

(** X11: the cleaned text is trimmed: it neither begins nor ends with a
    whitespace character, and trimming it again changes nothing. *)
Theorem clean_email_body_is_trimmed (x : str) :
  strip (clean_email_body x) = clean_email_body x /\
  (forall c, head (clean_email_body x) = Some c -> is_space c = false) /\
  (forall c, last (clean_email_body x) = Some c -> is_space c = false).
Proof.
  unfold clean_email_body. split; [apply strip_idem|].
  split; intros c; [apply strip_head|apply strip_last].
Qed.

Lemma clean_email_body_is_trimmed_witness :
  head (clean_email_body scenario_reply) = Some 68%N /\
  is_space 68%N = false.
Proof.
  assert (H : head (clean_email_body scenario_reply) = Some 68%N)
    by (vm_compute; reflexivity).
  split; [exact H|].
  exact (proj1 (proj2 (clean_email_body_is_trimmed scenario_reply)) _ H).
Defined.

Lemma after_last_nl_none_no_nl v a b :
  after_last_nl v = None -> v <> a ++ nl :: b.
Proof.
  revert a. induction v as [|c v IH]; intros a Hv Heq.
  - by destruct a.
  - simpl in Hv. destruct (after_last_nl v) eqn:E; [done|].
    destruct (is_nl c) eqn:Ec; [done|].
    destruct a as [|x a]; simpl in Heq.
    + injection Heq as -> _. by vm_compute in Ec.
    + injection Heq as _ Heq. by apply (IH a).
Qed.

Lemma whitespace_prefix (seg R T post : str) :
  forallb is_space seg = true -> stops is_space T ->
  R ++ T = seg ++ post -> exists post', R = seg ++ post'.
Proof.
  intros Hseg HT. revert R.
  induction seg as [|c seg IH]; intros R Heq; [by exists R|].
  apply andb_true_iff in Hseg as [Hc Hseg].
  destruct R as [|b R]; simpl in Heq.
  - subst T. simpl in HT. by rewrite Hc in HT.
  - injection Heq as -> Heq. destruct (IH Hseg R Heq) as [post' ->].
    by exists post'.
Qed.

(** A stretch of whitespace inside a text made of a part and a rest that
    does not begin with whitespace lies in the part or in the rest. *)
Lemma whitespace_stretch_side (R T pre seg post : str) :
  forallb is_space seg = true -> stops is_space T ->
  R ++ T = pre ++ seg ++ post ->
  (exists post', R = pre ++ seg ++ post') \/
  (exists pre', pre = R ++ pre' /\ T = pre' ++ seg ++ post).
Proof.
  intros Hseg HT. revert pre. induction R as [|a R IH]; intros pre Heq.
  - right. by exists pre.
  - destruct pre as [|p pre].
    + left. by apply (whitespace_prefix seg (a :: R) T post).
    + simpl in Heq. injection Heq as -> Heq.
      destruct (IH pre Heq) as [[post' ->]|(pre' & -> & ->)].
      * left. by exists post'.
      * right. by exists pre'.
Qed.

Lemma collapse_blank_gap s pre w post :
  collapse_blank s = pre ++ nl :: w ++ nl :: post ->
  forallb is_space w = true -> w = [].
Proof.
  revert pre w post.
  induction s as [s IH] using (induction_ltof1 _ (@length char)).
  unfold ltof in IH. intros pre w post Heq Hw.
  destruct s as [|c s]; [by destruct pre|].
  destruct (is_nl c) eqn:E.
  - apply is_nl_eq in E as ->. rewrite collapse_cons_run in Heq.
    assert (Hseg : forallb is_space (nl :: w ++ [nl]) = true).
    { simpl. by rewrite forallb_app, Hw. }
    replace (pre ++ nl :: w ++ nl :: post)
      with (pre ++ (nl :: w ++ [nl]) ++ post) in Heq
      by (simpl; by rewrite <- app_assoc).
    destruct (whitespace_stretch_side _ _ _ _ _ Hseg
                (collapse_stops _ (drop_while_stops is_space s)) Heq)
      as [[post' Hrun]|(pre' & _ & Hrest)].
    + clear Heq. unfold collapsed_run in Hrun.
      simpl in Hrun. rewrite <- app_assoc in Hrun. simpl in Hrun.
      destruct (after_last_nl (take_while is_space s)) as [v|] eqn:Ev.
      * pose proof (after_last_nl_tail _ _ Ev) as Hv.
        destruct pre as [|p pre]; simpl in Hrun.
        -- injection Hrun as Hrun. destruct w as [|x w]; [done|].
           simpl in Hrun. injection Hrun as _ Hrun.
           by apply after_last_nl_none_no_nl in Hrun.
        -- injection Hrun as _ Hrun. destruct pre as [|q pre]; simpl in Hrun.
           ++ injection Hrun as Hrun.
              by apply after_last_nl_none_no_nl in Hrun.
           ++ injection Hrun as _ Hrun.
              by apply after_last_nl_none_no_nl in Hrun.
      * destruct pre as [|p pre]; simpl in Hrun.
        -- injection Hrun as Hrun.
           by apply after_last_nl_none_no_nl in Hrun.
        -- injection Hrun as _ Hrun.
           by apply after_last_nl_none_no_nl in Hrun.
    + simpl in Hrest. rewrite <- app_assoc in Hrest. simpl in Hrest.
      apply (IH (drop_while is_space s)) in Hrest; [done| |done].
      simpl. pose proof (length_drop_while is_space s). lia.
  - rewrite collapse_cons_other in Heq by done.
    destruct pre as [|p pre]; simpl in Heq.
    + injection Heq as -> _. by vm_compute in E.
    + injection Heq as _ Heq. apply (IH s) in Heq; [done|simpl; lia|done].
Qed.

(** X12: in the cleaned text, two line breaks with nothing but whitespace
    between them are next to each other: a blank line is empty, and there
    are never two blank lines in a row. *)
Theorem clean_email_body_has_single_blank_lines (x pre w post : str) :
  clean_email_body x = pre ++ nl :: w ++ nl :: post ->
  forallb is_space w = true ->
  w = [].
Proof.
  unfold clean_email_body. intros Heq Hw.
  destruct (strip_within (collapse_blank (remove_artifacts x))) as (l & r & Hs).
  rewrite Heq in Hs.
  apply (collapse_blank_gap (remove_artifacts x) (l ++ pre) w (post ++ r));
    [|done].
  rewrite Hs. rewrite <- !app_assoc. simpl. by rewrite <- app_assoc.
Qed.

Lemma clean_email_body_has_single_blank_lines_witness :
  clean_email_body (s2l "Hi," ++ [nl; 32%N; nl; nl] ++ s2l "Bye")
    = s2l "Hi," ++ nl :: [] ++ nl :: s2l "Bye" /\
  @nil char = [].
Proof.
  assert (H : clean_email_body (s2l "Hi," ++ [nl; 32%N; nl; nl] ++ s2l "Bye")
              = s2l "Hi," ++ nl :: [] ++ nl :: s2l "Bye")
    by (vm_compute; reflexivity).
  split; [exact H|].
  exact (clean_email_body_has_single_blank_lines _ _ [] _ H eq_refl).
Defined.

(** ** categorize_email and _generate *)

Lemma strip_elem (s : str) c : c ∈ strip s -> c ∈ s.
Proof.
  destruct (strip_within s) as (l & r & Hs). intros Hc. rewrite Hs.
  apply elem_of_app. right. apply elem_of_app. by left.
Qed.

Lemma take_while_elem p (s : str) c : c ∈ take_while p s -> p c = true.
Proof.
  induction s as [|a s IH]; simpl; [by intros ?%elem_of_nil|].
  destruct (p a) eqn:E; [|by intros ?%elem_of_nil].
  intros [->|H]%elem_of_cons; [done|by apply IH].
Qed.

(** X13: the rationale of a classification result is a single line, trimmed:
    it contains no line break, and it neither begins nor ends with
    whitespace. *)
Theorem rationale_is_one_trimmed_line (response : str) (c : Classification) :
  parse_classification response = Some c ->
  (nl ∉ rationale c) /\
  strip (rationale c) = rationale c /\
  (forall x, head (rationale c) = Some x -> is_space x = false) /\
  (forall x, last (rationale c) = Some x -> is_space x = false).
Proof.
  rewrite parse_classification_spec.
  destruct (over_limit response); [done|]. intros [= <-]. cbn [rationale].
  unfold spec_rationale.
  destruct (first_at rationale_at response) as [r|] eqn:E; simpl.
  - apply first_at_some in E as (pre & s' & _ & H). unfold rationale_at in H.
    destruct (after_prefix same_char (s2l "Rationale:") s') as [rest|];
      [|done].
    simpl in H. injection H as <-.
    split; [|split; [apply strip_idem|split; intros x;
      [apply strip_head|apply strip_last]]].
    intros Hin%strip_elem%take_while_elem. by vm_compute in Hin.
  - split; [by intros ?%elem_of_nil|]. by repeat split.
Qed.

Lemma rationale_is_one_trimmed_line_witness :
  nl ∉ s2l "deadline today".
Proof.
  exact (proj1 (rationale_is_one_trimmed_line scenario_response
           {| category := URGENT; confidence := 87;
              rationale := s2l "deadline today" |}
           ltac:(vm_compute; reflexivity))).
Defined.

Lemma _generate_echo {St : Type} (client : str -> M St str) prompt w completion :
  prompt <> [] -> contains prompt completion = false ->
  (client prompt w).1 = Some (prompt ++ completion) ->
  _generate client prompt w = (Some (strip completion), (client prompt w).2).
Proof.
  intros Hp Hc Hr. unfold _generate, catch, bind, strip_prompt, ret.
  destruct (client prompt w) as [o w']. simpl in Hr. subst o. simpl.
  rewrite contains_app. destruct prompt as [|c p] eqn:E; [done|].
  rewrite <- E in *. rewrite split_echo by done. unfold split.
  by rewrite split_loop_absent.
Qed.

Lemma categorize_prompt_nonempty s b f : categorize_prompt s b f <> [].
Proof. unfold categorize_prompt. simpl. discriminate. Qed.

(** X14: when the service echoes the prompt of [categorize_email] in front
    of its answer (and the answer does not repeat the prompt), the
    classification is parsed from the answer alone: nothing of the echoed
    prompt, which quotes the email, reaches the parser. *)
Theorem categorize_email_ignores_the_echoed_prompt {St : Type}
    (client : str -> M St str) (subject body sender answer : str) (w : St) :
  contains (categorize_prompt subject body sender) answer = false ->
  (client (categorize_prompt subject body sender) w).1 =
    Some (categorize_prompt subject body sender ++ answer) ->
  (categorize_email client subject body sender w).1 =
    parse_classification (strip answer).
Proof.
  intros Hc Hr. unfold categorize_email, bind.
  rewrite (_generate_echo client _ w answer
             (categorize_prompt_nonempty subject body sender) Hc Hr).
  by destruct (parse_classification (strip answer)).
Qed.

Lemma categorize_email_ignores_the_echoed_prompt_witness :
  (categorize_email
     (fun p (w : unit) => (Some (p ++ nl :: scenario_response), w))
     (s2l "Category: low_priority") (s2l "Lunch?") (s2l "sam@example.org") tt).1 =
  Some {| category := URGENT; confidence := 87;
          rationale := s2l "deadline today" |}.
Proof.
  rewrite (categorize_email_ignores_the_echoed_prompt
             (fun p (w : unit) => (Some (p ++ nl :: scenario_response), w))
             (s2l "Category: low_priority") (s2l "Lunch?")
             (s2l "sam@example.org") (nl :: scenario_response) tt);
    [by vm_compute|by vm_compute|reflexivity].
Defined.

(** X5: [_generate], through which every operation of the client goes,
    never raises; it returns the empty text when the call to the service
    raises; when the response is the prompt followed by a completion in
    which the prompt does not occur, it returns the completion trimmed; when
    the prompt does not occur in the response, it returns the response
    trimmed.  A classification whose call fails is LOW_PRIORITY, 0 and the
    empty rationale. *)
Theorem _generate_contract {St : Type} (client : str -> M St str)
    (prompt : str) (w : St) :
  (exists text, _generate client prompt w = (Some text, (client prompt w).2)) /\
  ((client prompt w).1 = None ->
   _generate client prompt w = (Some [], (client prompt w).2)) /\
  (forall completion,
     prompt <> [] -> contains prompt completion = false ->
     (client prompt w).1 = Some (prompt ++ completion) ->
     (_generate client prompt w).1 = Some (strip completion)) /\
  (forall response,
     contains prompt response = false ->
     (client prompt w).1 = Some response ->
     (_generate client prompt w).1 = Some (strip response)) /\
  (forall a b c,
     generate_reply client a b c = _generate client (reply_prompt a b c) /\
     generate_draft_email client a b c = _generate client (draft_prompt a b c) /\
     generate_digest client a = _generate client (digest_prompt a)) /\
  (forall a b c w0,
     (client (categorize_prompt a b c) w0).1 = None ->
     categorize_email client a b c w0 =
       (Some {| category := LOW_PRIORITY; confidence := 0; rationale := [] |},
        (client (categorize_prompt a b c) w0).2)).
Proof.
  split; [apply _generate_total|].
  assert (Hcat : forall a b c w0,
     (client (categorize_prompt a b c) w0).1 = None ->
     categorize_email client a b c w0 =
       (Some {| category := LOW_PRIORITY; confidence := 0; rationale := [] |},
        (client (categorize_prompt a b c) w0).2)).
  { intros a b c w0. unfold categorize_email, _generate, catch, bind.
    destruct (client (categorize_prompt a b c) w0) as [[r|] w1]; simpl; [done|].
    by intros _. }
  unfold _generate, catch, bind, strip_prompt, ret, raise.
  destruct (client prompt w) as [[response|] w']; simpl.
  - split; [done|]. split; [|split; [|done]].
    + intros completion Hp Hc [= ->]. rewrite contains_app.
      destruct prompt as [|c p] eqn:E; [done|]. rewrite <- E in *.
      rewrite split_echo by (by rewrite E). unfold split.
      by rewrite split_loop_absent.
    + intros response' Hc [= <-]. by rewrite Hc.
  - split; [done|]. split; [done|]. split; [done|]. by split.
Qed.

Lemma _generate_contract_witness :
  (_generate (fun p (w : unit) => (Some (p ++ s2l "  Dear Sam, thanks. "), w))
     (s2l "Reply politely:") tt).1 = Some (s2l "Dear Sam, thanks.") /\
  _generate (fun _ (w : unit) => (None, w)) (s2l "Reply politely:") tt
    = (Some [], tt).
Proof.
  split.
  - rewrite (proj1 (proj2 (proj2 (_generate_contract
        (fun p (w : unit) => (Some (p ++ s2l "  Dear Sam, thanks. "), w))
        (s2l "Reply politely:") tt))) (s2l "  Dear Sam, thanks. "));
      [by vm_compute|discriminate|by vm_compute|reflexivity].
  - apply (proj1 (proj2 (_generate_contract
        (fun _ (w : unit) => (None, w)) (s2l "Reply politely:") tt))).
    reflexivity.
Defined.

(** ** fetch_emails *)

Lemma header_absent name dflt hs :
  name ∉ map fst hs -> header name dflt hs = dflt.
Proof.
  induction hs as [|[n v] hs IH]; simpl; [done|].
  intros [Hn Hin]%not_elem_of_cons. unfold str_eqb.
  rewrite bool_decide_eq_false_2 by congruence. by apply IH.
Qed.

Lemma header_first name dflt pre v post :
  name ∉ map fst pre -> header name dflt (pre ++ (name, v) :: post) = v.
Proof.
  induction pre as [|[n x] pre IH]; simpl.
  - intros _. unfold str_eqb. by rewrite bool_decide_eq_true_2.
  - intros [Hn Hin]%not_elem_of_cons. unfold str_eqb.
    rewrite bool_decide_eq_false_2 by congruence. by apply IH.
Qed.

(** X15: [fetch_emails] returns one email per listed message, in the
    order of the list, each under the message's identifier.  A message
    without a "Subject", "From" or "Date" header gets the placeholder
    "(No Subject)", "(Unknown Sender)" or "(No Date)"; when one of these
    headers occurs several times, its first occurrence is the one that
    counts. *)
Theorem fetch_emails_headers :
  (forall messages, map id (fetch_emails messages) = map message_id messages) /\
  (forall msg,
     (s2l "Subject" ∉ map fst (headers (payload msg)) ->
      subject (email_of_message msg) = s2l "(No Subject)") /\
     (s2l "From" ∉ map fst (headers (payload msg)) ->
      sender (email_of_message msg) = s2l "(Unknown Sender)") /\
     (s2l "Date" ∉ map fst (headers (payload msg)) ->
      date (email_of_message msg) = s2l "(No Date)")) /\
  (forall msg name pre v post,
     headers (payload msg) = pre ++ (name, v) :: post ->
     name ∉ map fst pre ->
     (name = s2l "Subject" -> subject (email_of_message msg) = v) /\
     (name = s2l "From" -> sender (email_of_message msg) = v) /\
     (name = s2l "Date" -> date (email_of_message msg) = v)).
Proof.
  split; [|split].
  - intros messages. unfold fetch_emails. rewrite map_map. done.
  - intros msg. unfold email_of_message. cbn [subject sender date].
    by repeat split; apply header_absent.
  - intros msg name pre v post Hh Hpre. unfold email_of_message.
    cbn [subject sender date]. rewrite Hh.
    repeat split; intros <-; by apply header_first.
Qed.

Lemma fetch_emails_headers_witness :
  sender (email_of_message message_1) = s2l "sam@example.org" /\
  date (email_of_message message_2) = s2l "(No Date)".
Proof.
  split.
  - apply (proj2 (proj2 fetch_emails_headers) message_1 (s2l "From")
             [(s2l "Subject", s2l "Lunch")] (s2l "sam@example.org") _ eq_refl);
      [|reflexivity].
    intros [H|H%elem_of_nil]%elem_of_cons; [discriminate H|done].
  - apply (proj1 (proj2 fetch_emails_headers) message_2).
    vm_compute. intros H.
    repeat (apply elem_of_cons in H as [H|H]; [discriminate H|]).
    by apply elem_of_nil in H.
Defined.

Lemma _get_body_from_parts_filter ps :
  _get_body_from_parts ps =
  concat (map (fun part => default [] (part_data part))
            (filter (fun part => mimeType part = s2l "text/plain") ps)).
Proof.
  induction ps as [|part ps IH]; [done|]. simpl. unfold str_eqb.
  destruct (decide (mimeType part = s2l "text/plain")) as [Heq|Hne].
  - rewrite bool_decide_eq_true_2, filter_cons_True by done. simpl.
    by rewrite IH.
  - rewrite bool_decide_eq_false_2, filter_cons_False by done. simpl.
    by rewrite IH.
Qed.

(** X16: the body of a multipart message is made of its text/plain parts
    only, in order, each contributing its data (nothing when it has none);
    the body data of the payload itself is not looked at.  So a multipart
    message with no text/plain part, an HTML-only one for instance, is
    fetched with an empty body. *)
Theorem fetch_emails_multipart_body (msg : Message) (ps : list Part) :
  parts (payload msg) = Some ps ->
  body (email_of_message msg) =
    concat (map (fun part => default [] (part_data part))
              (filter (fun part => mimeType part = s2l "text/plain") ps)) /\
  (Forall (fun part => mimeType part <> s2l "text/plain") ps ->
   body (email_of_message msg) = []).
Proof.
  intros Hp. unfold email_of_message. cbn [body]. rewrite Hp.
  rewrite _get_body_from_parts_filter. split; [done|].
  intros Hall. clear Hp. induction Hall as [|part ps' Hne _ IH]; [done|].
  by rewrite filter_cons_False.
Qed.

Lemma fetch_emails_multipart_body_witness :
  body (email_of_message message_3) = [].
Proof.
  refine (proj2 (fetch_emails_multipart_body message_3 _ eq_refl) _).
  constructor; [discriminate|constructor].
Defined.

(** ** From the provider draft to the message sent *)

Lemma remove_artifacts_free s : artifact_free s -> remove_artifacts s = s.
Proof.
  intros (H1 & H2 & H3 & H4 & H5 & H6). unfold remove_artifacts.
  by rewrite (sub_no_match _ _ _ _ H1), (sub_no_match _ _ _ _ H2),
    (sub_no_match _ _ _ _ H3), (sub_no_match _ _ _ _ H4),
    (sub_no_match _ _ _ _ H5), (sub_no_match _ _ _ _ H6).
Qed.

Lemma row_reply_clean_again E email t :
  artifact_free (pe_draft_reply (row_of E email t)) ->
  clean_email_body (pe_draft_reply (row_of E email t)) =
    pe_draft_reply (row_of E email t).
Proof.
  unfold row_of. cbn [pe_draft_reply]. intros Hfree.
  unfold clean_email_body at 1. rewrite (remove_artifacts_free _ Hfree).
  unfold clean_email_body. apply tidy_idem.
Qed.

Lemma written_elem E limit w row :
  row ∈ written E limit w -> exists email t, row = row_of E email t.
Proof. rewrite written_rows. apply rows_of_elem. Qed.

(** X17: from the draft at the provider to the message sent.  After
    [process_emails], every identifier for which the run wrote a row has an
    active draft, and the text of that draft is the body of one of the
    [create_draft] calls of the run, made under the subject "Re: " followed
    by the draft's subject.  A confirmed send cleans the stored text once
    more: when none of the removal patterns matches the stored text, the
    body sent is that text, the one standing in the provider draft. *)
Theorem sent_body_is_the_provider_draft_body (E E' : Env) (limit : nat)
    (w : World) (i recipient : str) :
  i ∈ map (fun row => id (pe_email row)) (written E limit w) ->
  exists d to,
    drafts (process_emails E limit w).2 !! i = Some d /\
    (to, s2l "Re: " ++ d_subject d, d_draft_reply d)
      ∈ drop (length (created_drafts w))
          (created_drafts (process_emails E limit w).2) /\
    (artifact_free (d_draft_reply d) ->
     sent_mail (send_drafted_email E' i recipient true
                  (process_emails E limit w).2).2 =
       sent_mail w ++ [(recipient, d_subject d, d_draft_reply d)]).
Proof.
  intros Hi.
  destruct (written_draft E limit w i Hi) as (row & Hrow & _ & Hdraft).
  destruct (process_emails_world E limit w) as (_ & _ & _ & Hc & Hm & _).
  exists (draft_of_email row), (sender (pe_email row)).
  split; [exact Hdraft|]. split.
  - rewrite Hc, drop_app_length. apply list_elem_of_fmap.
    exists row. by split.
  - cbn [draft_of_email d_draft_reply d_subject]. intros Hfree.
    unfold send_drafted_email, bind, lookup_draft, gmail_send_email.
    cbn [fst snd]. rewrite Hdraft. simpl. rewrite Hm.
    apply written_elem in Hrow as (email & t' & ->).
    rewrite (row_reply_clean_again _ _ _ Hfree).
    by destruct (api_send_email E' _ _ _ _).
Qed.

Lemma sent_body_is_the_provider_draft_body_witness :
  exists d to,
    drafts (process_emails friendly 2 empty_world).2 !! s2l "m1" = Some d /\
    (to, s2l "Re: " ++ d_subject d, d_draft_reply d)
      ∈ drop 0 (created_drafts (process_emails friendly 2 empty_world).2) /\
    (artifact_free (d_draft_reply d) ->
     sent_mail (send_drafted_email hostile (s2l "m1") (s2l "sam@example.org")
                  true (process_emails friendly 2 empty_world).2).2 =
       [] ++ [(s2l "sam@example.org", d_subject d, d_draft_reply d)]).
Proof.
  apply (sent_body_is_the_provider_draft_body friendly hostile 2 empty_world
           (s2l "m1") (s2l "sam@example.org")).
  rewrite written_rows. vm_compute. apply list_elem_of_here.
Defined.

(** ** send_drafted_email *)

(** X18: what a call of [send_drafted_email] leaves alone, whatever its
    arguments and outcome.  The record store and the list of provider drafts
    are untouched; the drafts and sent copies of every other identifier are
    untouched; at most one message is handed to the mailbox; and a draft under
    the identifier is never lost: after the call it is still active, or it is
    the sent copy. *)
Theorem send_drafted_email_frame (E : Env) (draft_id recipient : str)
    (confirm : bool) (w : World) :
  let w' := (send_drafted_email E draft_id recipient confirm w).2 in
  emails_csv w' = emails_csv w /\
  created_drafts w' = created_drafts w /\
  (forall j, j <> draft_id ->
     drafts w' !! j = drafts w !! j /\ sent w' !! j = sent w !! j) /\
  (sent_mail w' = sent_mail w \/
   exists message, sent_mail w' = sent_mail w ++ [message]) /\
  (forall d, drafts w !! draft_id = Some d ->
     (drafts w' !! draft_id = Some d /\ sent w' !! draft_id = sent w !! draft_id)
     \/ (drafts w' !! draft_id = None /\ sent w' !! draft_id = Some d)).
Proof.
  unfold send_drafted_email, bind, lookup_draft, gmail_send_email.
  destruct (drafts w !! draft_id) as [draft|] eqn:Hd; cbn [fst snd ret].
  - destruct confirm; cbn [negb ret snd fst].
    + destruct (api_send_email E _ _ _ _); cbn [snd fst move_to_sent ret
        emails_csv created_drafts drafts sent sent_mail].
      * repeat split; try done.
        -- by rewrite lookup_delete_ne.
        -- by rewrite lookup_insert_ne.
        -- right. by eexists.
        -- intros d [= <-]. right.
           by rewrite lookup_delete_eq, lookup_insert_eq.
      * repeat split; try done.
        -- right. by eexists.
        -- intros d [= <-]. left. by rewrite Hd.
    + repeat split; try done.
      * by left.
      * intros d [= <-]. left. by rewrite Hd.
  - repeat split; try done. by left.
Qed.

(** ** main *)

Lemma get_daily_stats_run E w :
  exists stats, get_daily_stats E w = (Some stats, advance w).
Proof.
  unfold get_daily_stats, bind, read_rows, now.
  destruct (emails_csv w); by eexists.
Qed.

(** One turn of the loop on a line that is not "exit": the world it leaves
    has the same sent mail and sent partition and a record store that was
    only extended, and is the same up to the call counter when the line is
    not "process"; either the turn raises, which only "process" does, or the
    rest of the session follows, with something printed. *)
Lemma main_loop_turn E limit line out w :
  ~ is_command "exit" line ->
  exists w',
    (sent_mail w' = sent_mail w /\ sent w' = sent w /\
     (exists rows, default [] (emails_csv w') = default [] (emails_csv w) ++ rows) /\
     (~ is_command "process" line ->
      emails_csv w' = emails_csv w /\ drafts w' = drafts w /\
      created_drafts w' = created_drafts w)) /\
    ((is_command "process" line /\
      forall inputs, main_loop E limit (line :: inputs) out w = (None, w')) \/
     (exists more,
        (Exiting ∉ more) /\ more <> [] /\
        forall inputs,
          main_loop E limit (line :: inputs) out w =
            main_loop E limit inputs (out ++ more) w')).
Proof.
  unfold is_command. intros Hexit.
  assert (Hone : forall x : printed, x <> Exiting -> Exiting ∉ [x]).
  { intros x Hx [Hin|Hin%elem_of_nil]%elem_of_cons; [by apply Hx|done]. }
  assert (Hsame : forall w0 : World,
            exists rows : list ProcessedEmail,
              default [] (emails_csv w0) = default [] (emails_csv w0) ++ rows).
  { intros w0. exists []. by rewrite app_nil_r. }
  destruct (decide (lower (strip line) = s2l "help")) as [Hhelp|Hhelp].
  { exists w. split; [by repeat split|]. right. exists [HelpText].
    split; [by apply Hone|]. split; [done|].
    intros inputs. cbn [main_loop]. unfold str_eqb.
    by rewrite (bool_decide_eq_false_2 _ Hexit), (bool_decide_eq_true_2 _ Hhelp). }
  destruct (decide (lower (strip line) = s2l "process")) as [Hprocess|Hprocess].
  { exists (process_emails E limit w).2.
    destruct (process_emails_world E limit w) as (Hcsv & _ & Hs & _ & Hm & _).
    split; [split; [done|]; split; [done|]; split; [by eexists|done]|].
    destruct (process_emails E limit w) as [[stats|] w'] eqn:Erun.
    - right. exists [Processing; Processed stats].
      split.
      { intros [Hx|[Hx|Hx%elem_of_nil]%elem_of_cons]%elem_of_cons; done. }
      split; [done|].
      intros inputs. cbn [main_loop]. unfold str_eqb.
      rewrite (bool_decide_eq_false_2 _ Hexit), (bool_decide_eq_false_2 _ Hhelp),
        (bool_decide_eq_true_2 _ Hprocess).
      unfold bind. by rewrite Erun.
    - left. split; [done|].
      intros inputs. cbn [main_loop]. unfold str_eqb.
      rewrite (bool_decide_eq_false_2 _ Hexit), (bool_decide_eq_false_2 _ Hhelp),
        (bool_decide_eq_true_2 _ Hprocess).
      unfold bind. by rewrite Erun. }
  destruct (decide (lower (strip line) = s2l "stats")) as [Hstats|Hstats].
  { destruct (get_daily_stats_run E w) as [stats Hrun].
    exists (advance w). split; [repeat split; try done; apply (Hsame w)|]. right.
    exists [Statistics stats]. split; [by apply Hone|]. split; [done|].
    intros inputs. cbn [main_loop]. unfold str_eqb.
    rewrite (bool_decide_eq_false_2 _ Hexit), (bool_decide_eq_false_2 _ Hhelp),
      (bool_decide_eq_false_2 _ Hprocess), (bool_decide_eq_true_2 _ Hstats).
    unfold bind. by rewrite Hrun. }
  exists w. split; [by repeat split|]. right. exists [UnknownCommand].
  split; [by apply Hone|]. split; [done|].
  intros inputs. cbn [main_loop]. unfold str_eqb.
  by rewrite (bool_decide_eq_false_2 _ Hexit), (bool_decide_eq_false_2 _ Hhelp),
    (bool_decide_eq_false_2 _ Hprocess), (bool_decide_eq_false_2 _ Hstats).
Qed.

Lemma main_loop_frame E limit inputs out w :
  sent_mail (main_loop E limit inputs out w).2 = sent_mail w /\
  sent (main_loop E limit inputs out w).2 = sent w /\
  (exists rows, default [] (emails_csv (main_loop E limit inputs out w).2) =
                default [] (emails_csv w) ++ rows) /\
  (Forall (fun line => ~ is_command "process" line) inputs ->
   emails_csv (main_loop E limit inputs out w).2 = emails_csv w /\
   drafts (main_loop E limit inputs out w).2 = drafts w /\
   created_drafts (main_loop E limit inputs out w).2 = created_drafts w).
Proof.
  revert out w. induction inputs as [|line inputs IH]; intros out w.
  { simpl. repeat split; try done. exists []. by rewrite app_nil_r. }
  destruct (decide (lower (strip line) = s2l "exit")) as [Hexit|Hexit].
  { cbn [main_loop]. unfold str_eqb.
    rewrite (bool_decide_eq_true_2 _ Hexit). simpl.
    repeat split; try done. exists []. by rewrite app_nil_r. }
  destruct (main_loop_turn E limit line out w Hexit)
    as (w' & (Hm & Hs & [rows Hrows] & Hquiet) & Hturn).
  destruct Hturn as [[Hp Hturn]|(more & _ & _ & Hturn)]; rewrite Hturn.
  - cbn [snd]. split; [done|]. split; [done|]. split; [by exists rows|].
    intros [Hline _]%Forall_cons. by apply Hquiet.
  - destruct (IH (out ++ more) w') as (IHm & IHs & [rows' IHrows] & IHquiet).
    split; [by rewrite IHm|]. split; [by rewrite IHs|].
    split; [exists (rows ++ rows'); by rewrite IHrows, Hrows, app_assoc|].
    intros [Hline Hrest]%Forall_cons.
    destruct (Hquiet Hline) as (H1 & H2 & H3).
    destruct (IHquiet Hrest) as (I1 & I2 & I3).
    by rewrite I1, I2, I3, H1, H2, H3.
Qed.

(** X19: the command loop never sends mail.  Whatever is typed in a
    session, no [send_email] call is made and the sent partition is
    untouched; the record store is only extended; and in a session without a
    "process" command the records, the drafts and the provider drafts are
    left as they were. *)
Theorem main_never_sends (E : Env) (limit : nat) (inputs : list str)
    (w : World) :
  sent_mail (main E limit inputs w).2 = sent_mail w /\
  sent (main E limit inputs w).2 = sent w /\
  (exists rows, default [] (emails_csv (main E limit inputs w).2) =
                default [] (emails_csv w) ++ rows) /\
  (Forall (fun line => ~ is_command "process" line) inputs ->
   emails_csv (main E limit inputs w).2 = emails_csv w /\
   drafts (main E limit inputs w).2 = drafts w /\
   created_drafts (main E limit inputs w).2 = created_drafts w).
Proof. apply main_loop_frame. Qed.

Lemma main_never_sends_witness :
  drafts (main friendly 2 [s2l " Stats "; s2l "send m1"; s2l "EXIT"]
            one_draft).2 = drafts one_draft.
Proof.
  apply (main_never_sends friendly 2
           [s2l " Stats "; s2l "send m1"; s2l "EXIT"] one_draft).
  repeat constructor; unfold is_command; vm_compute; discriminate.
Defined.

Lemma main_loop_exit E limit pre line post out w :
  Forall (fun l => ~ is_command "exit" l) pre ->
  is_command "exit" line ->
  main_loop E limit (pre ++ line :: post) out w =
    main_loop E limit (pre ++ [line]) out w /\
  ((main_loop E limit (pre ++ line :: post) out w).1 = None \/
   exists more,
     (main_loop E limit (pre ++ line :: post) out w).1 =
       Some (out ++ more ++ [Exiting]) /\
     (Exiting ∉ more) /\ length pre <= length more) /\
  (Forall (fun l => ~ is_command "process" l) pre ->
   is_Some (main_loop E limit (pre ++ line :: post) out w).1).
Proof.
  intros Hpre Hline. revert out w.
  induction Hpre as [|l pre Hl _ IH]; intros out w.
  - cbn [app main_loop]. unfold is_command in Hline. unfold str_eqb.
    rewrite (bool_decide_eq_true_2 _ Hline). split; [done|]. split.
    + right. exists []. repeat split; [by intros ?%elem_of_nil|done].
    + intros _. by eexists.
  - rewrite <- !app_comm_cons.
    destruct (main_loop_turn E limit l out w Hl) as (w1 & _ & Hturn).
    destruct Hturn as [[Hp Hturn]|(more1 & Hno1 & Hne1 & Hturn)]; rewrite !Hturn.
    + split; [done|]. split; [by left|].
      intros [Hq _]%Forall_cons. done.
    + destruct (IH (out ++ more1) w1) as (Heq & Hout & Hret).
      split; [exact Heq|]. split.
      * destruct Hout as [Hnone|(more & Hout & Hno & Hlen)]; [by left|].
        right. exists (more1 ++ more). rewrite Hout.
        split; [by rewrite <- !app_assoc|].
        split; [by intros [?|?]%elem_of_app|].
        rewrite length_app. destruct more1; [done|]. simpl. lia.
      * intros [_ Hq]%Forall_cons. by apply Hret.
Qed.

Lemma main_loop_eof E limit inputs out w :
  Forall (fun l => ~ is_command "exit" l) inputs ->
  (main_loop E limit inputs out w).1 = None.
Proof.
  intros Hall. revert out w.
  induction Hall as [|l inputs Hl _ IH]; intros out w; [done|].
  destruct (main_loop_turn E limit l out w Hl) as (w' & _ & Hturn).
  destruct Hturn as [[_ Hturn]|(more & _ & _ & Hturn)]; rewrite Hturn;
    [done|apply IH].
Qed.

(** X20: a session ends at its first "exit".  With an "exit" line (any
    letter case, any whitespace around it) after lines that are not, the
    lines typed after it are never read; the session either ends before it
    with an exception or returns with "Exiting..." printed once, last, after
    at least one printed item per earlier line; it returns when the earlier
    lines are neither "process" nor "stats".  A session whose lines run out
    without an "exit" ends with an exception. *)
Theorem main_stops_at_the_first_exit (E : Env) (limit : nat)
    (pre : list str) (line : str) (post : list str) (w : World) :
  Forall (fun l => ~ is_command "exit" l) pre ->
  (is_command "exit" line ->
   main E limit (pre ++ line :: post) w = main E limit (pre ++ [line]) w /\
   ((main E limit (pre ++ line :: post) w).1 = None \/
    exists printed_before,
      (main E limit (pre ++ line :: post) w).1 =
        Some (printed_before ++ [Exiting]) /\
      (Exiting ∉ printed_before) /\ length pre <= length printed_before) /\
   (Forall (fun l => ~ is_command "process" l /\ ~ is_command "stats" l) pre ->
    is_Some (main E limit (pre ++ line :: post) w).1)) /\
  (main E limit pre w).1 = None.
Proof.
  intros Hpre. split; [|by apply main_loop_eof].
  intros Hline. unfold main.
  destruct (main_loop_exit E limit pre line post [] w Hpre Hline)
    as (Heq & Hout & Hret).
  split; [done|]. split; [done|].
  intros Hq. apply Hret. eapply Forall_impl; [exact Hq|]. by intros l [? _].
Qed.

Lemma main_stops_at_the_first_exit_witness :
  main friendly 2 ([s2l "help"; s2l "process"] ++ s2l " Exit " :: [s2l "stats"])
    empty_world =
  main friendly 2 ([s2l "help"; s2l "process"] ++ [s2l " Exit "]) empty_world.
Proof.
  assert (Hpre : Forall (fun l => ~ is_command "exit" l)
                   [s2l "help"; s2l "process"])
    by (repeat constructor; unfold is_command; vm_compute; discriminate).
  assert (Hline : is_command "exit" (s2l " Exit ")) by (by vm_compute).
  exact (proj1 (proj1 (main_stops_at_the_first_exit friendly 2
                         [s2l "help"; s2l "process"] (s2l " Exit ")
                         [s2l "stats"] empty_world Hpre) Hline)).
Defined.

(** ** clean_email_body only deletes *)

Lemma sub_loop_delete f r prev s skip :
  sublist (Re.sub_loop f r [] prev s skip) s.
Proof.
  revert prev skip. induction s as [|c s IH]; intros prev skip.
  - destruct skip; simpl; [|done].
    destruct (match_at f r false prev []) as [[rest g]|]; [|done].
    simpl. by destruct (match_at f r true prev []) as [[rest' g']|].
  - destruct skip as [|n].
    + rewrite sub_loop_cons_0.
      destruct (match_at f r false prev (c :: s)) as [[rest g]|];
        [|by apply sublist_skip].
      destruct (length (c :: s) - length rest) as [|n].
      * destruct (match_at f r true prev (c :: s)) as [[rest' g']|]; simpl.
        -- by apply sublist_cons.
        -- by apply sublist_skip.
      * simpl. by apply sublist_cons.
    + rewrite sub_loop_cons_skip. by apply sublist_cons.
Qed.

Lemma remove_artifacts_delete x : sublist (remove_artifacts x) x.
Proof.
  unfold remove_artifacts, Re.sub.
  repeat (etrans; [apply sub_loop_delete|]). done.
Qed.

Lemma after_last_nl_at w v :
  after_last_nl w = Some v -> exists u, w = u ++ nl :: v.
Proof.
  revert v. induction w as [|c w IH]; intros v; simpl; [done|].
  destruct (after_last_nl w) as [v'|] eqn:E.
  - intros [= <-]. destruct (IH _ eq_refl) as (u & ->). by exists (c :: u).
  - destruct (is_nl c) eqn:Ec; [|done]. intros [= <-].
    apply is_nl_eq in Ec as ->. by exists [].
Qed.

Lemma collapsed_run_delete w : sublist (collapsed_run w) (nl :: w).
Proof.
  unfold collapsed_run. destruct (after_last_nl w) as [v|] eqn:E; [|done].
  destruct (after_last_nl_at _ _ E) as [u ->].
  apply sublist_skip. by apply sublist_inserts_l.
Qed.

Lemma collapse_blank_delete s : sublist (collapse_blank s) s.
Proof.
  induction s as [s IH] using (induction_ltof1 _ (@length char)).
  unfold ltof in IH. destruct s as [|c s]; [done|].
  destruct (is_nl c) eqn:Ec.
  - apply is_nl_eq in Ec as ->. rewrite collapse_cons_run.
    rewrite <- (take_drop_while is_space s) at 3.
    change (nl :: take_while is_space s ++ drop_while is_space s)
      with ((nl :: take_while is_space s) ++ drop_while is_space s).
    apply sublist_app; [apply collapsed_run_delete|].
    apply IH. simpl. pose proof (length_drop_while is_space s). lia.
  - rewrite (collapse_cons_other _ _ Ec). apply sublist_skip, IH. simpl. lia.
Qed.

Lemma strip_delete s : sublist (strip s) s.
Proof.
  destruct (strip_within s) as (l & r & Hs). rewrite Hs at 2.
  apply sublist_inserts_l, sublist_inserts_r. done.
Qed.

(** X21: [clean_email_body] only deletes.  The cleaned text is the given
    text with some characters left out: nothing is inserted, replaced or
    moved (the two newlines that replace a blank stretch are its first and
    its last newline).  So the cleaned text is never longer than the text,
    and every character of it is one of the text. *)
Theorem clean_email_body_only_deletes (x : str) :
  sublist (clean_email_body x) x /\
  length (clean_email_body x) <= length x /\
  (forall c, c ∈ clean_email_body x -> c ∈ x).
Proof.
  assert (H : sublist (clean_email_body x) x).
  { unfold clean_email_body.
    etrans; [apply strip_delete|]. etrans; [apply collapse_blank_delete|].
    apply remove_artifacts_delete. }
  split; [exact H|]. split; [by apply sublist_length|].
  intros c Hc. by eapply elem_of_sublist.
Qed.

